(** * NexGen order orchestration: the scoring and option-generation engine

  A shallow embedding of [app.py]: the pre-processing of the tables
  (total cost, weather ordinals, left joins, imputation), the request
  handler run on "submit" (warehouse and route filters, the cross product
  of warehouses and vehicles, normalisation, the weighted score and the
  selection of the best option), and the properties of these.

  Numbers: the columns of the data frames are float64 in the program.
  They are modelled here as exact rationals ([Q]); a missing cell (NaN,
  or an absent value) is [None].  Equality of numbers is [Qeq] ([==]).
  Text is modelled as [string] over ASCII characters. *)

From Stdlib Require Import List String Ascii Bool Arith ZArith Lia.
From Stdlib Require Import QArith Qminmax Lqa.
From Stdlib Require Import Permutation Sorted.
Import ListNotations.

Local Open Scope Q_scope.

(** ** Columns of numbers *)

Module Column.

(** [col.min()] and [col.max()] of a column without missing cells.  On an
    empty column pandas gives NaN; the value chosen here is never used,
    since every operation below maps over the (empty) column. *)
Definition col_min (col : list Q) : Q :=
  match col with
  | [] => 0
  | x :: xs => fold_left Qmin xs x
  end.

Definition col_max (col : list Q) : Q :=
  match col with
  | [] => 0
  | x :: xs => fold_left Qmax xs x
  end.

Definition col_sum (col : list Q) : Q := fold_left Qplus col 0.

(** [col.mean()] *)
Definition col_mean (col : list Q) : Q :=
  col_sum col / inject_Z (Z.of_nat (List.length col)).

(** element-wise [a + b] of two columns of one frame *)
Definition col_add (a b : list Q) : list Q :=
  map (fun p => fst p + snd p) (combine a b).

Definition Qltb (a b : Q) : bool := negb (Qle_bool b a).

Lemma Qltb_lt a b : Qltb a b = true <-> a < b.
Proof.
  unfold Qltb. rewrite negb_true_iff. split; intro H.
  - apply Qnot_le_lt. intro L. apply Qle_bool_iff in L. congruence.
  - destruct (Qle_bool b a) eqn:E; [|reflexivity].
    apply Qle_bool_iff in E. exfalso. apply (Qlt_not_le _ _ H E).
Qed.

Lemma fold_min_le_init xs : forall a, fold_left Qmin xs a <= a.
Proof.
  induction xs as [|y ys IH]; intro a; simpl.
  - apply Qle_refl.
  - eapply Qle_trans; [apply IH | apply Q.le_min_l].
Qed.

Lemma fold_min_le_in xs : forall a x, In x xs -> fold_left Qmin xs a <= x.
Proof.
  induction xs as [|y ys IH]; intros a x Hin; simpl in *.
  - contradiction.
  - destruct Hin as [->|Hin].
    + eapply Qle_trans; [apply fold_min_le_init | apply Q.le_min_r].
    + now apply IH.
Qed.

Lemma fold_max_ge_init xs : forall a, a <= fold_left Qmax xs a.
Proof.
  induction xs as [|y ys IH]; intro a; simpl.
  - apply Qle_refl.
  - eapply Qle_trans; [apply Q.le_max_l | apply IH].
Qed.

Lemma fold_max_ge_in xs : forall a x, In x xs -> x <= fold_left Qmax xs a.
Proof.
  induction xs as [|y ys IH]; intros a x Hin; simpl in *.
  - contradiction.
  - destruct Hin as [->|Hin].
    + eapply Qle_trans; [apply Q.le_max_r | apply fold_max_ge_init].
    + now apply IH.
Qed.

Lemma col_min_le col x : In x col -> col_min col <= x.
Proof.
  destruct col as [|a xs]; simpl; [contradiction|].
  intros [->|Hin]; [apply fold_min_le_init | now apply fold_min_le_in].
Qed.

Lemma col_max_ge col x : In x col -> x <= col_max col.
Proof.
  destruct col as [|a xs]; simpl; [contradiction|].
  intros [->|Hin]; [apply fold_max_ge_init | now apply fold_max_ge_in].
Qed.

(** the minimum is attained *)
Lemma fold_min_in xs : forall a,
  fold_left Qmin xs a == a \/ exists x, In x xs /\ fold_left Qmin xs a == x.
Proof.
  induction xs as [|y ys IH]; intro a; simpl.
  - left. reflexivity.
  - destruct (IH (Qmin a y)) as [E | (x & Hx & E)].
    + destruct (Q.min_spec a y) as [[_ M] | [_ M]].
      * left. now rewrite E, M.
      * right. exists y. split; [now left|]. now rewrite E, M.
    + right. exists x. split; [now right | exact E].
Qed.

Lemma col_min_in col : col <> [] -> exists x, In x col /\ col_min col == x.
Proof.
  destruct col as [|a xs]; [congruence|]. intros _. simpl.
  destruct (fold_min_in xs a) as [E | (x & Hx & E)].
  - exists a. split; [now left | exact E].
  - exists x. split; [now right | exact E].
Qed.

Lemma col_min_le_max col : col_min col <= col_max col.
Proof.
  destruct col as [|a xs]; [apply Qle_refl|].
  eapply Qle_trans; [apply (col_min_le (a :: xs) a) | apply (col_max_ge (a :: xs) a)];
    now left.
Qed.

(** a column all of whose cells equal [c] *)
Lemma fold_min_const xs c : forall a,
  a == c -> (forall x, In x xs -> x == c) -> fold_left Qmin xs a == c.
Proof.
  induction xs as [|y ys IH]; intros a Ha Hall; simpl.
  - exact Ha.
  - apply IH.
    + rewrite Ha, (Hall y (or_introl eq_refl)). apply Q.min_id.
    + intros x Hx. apply Hall. now right.
Qed.

Lemma fold_max_const xs c : forall a,
  a == c -> (forall x, In x xs -> x == c) -> fold_left Qmax xs a == c.
Proof.
  induction xs as [|y ys IH]; intros a Ha Hall; simpl.
  - exact Ha.
  - apply IH.
    + rewrite Ha, (Hall y (or_introl eq_refl)). apply Q.max_id.
    + intros x Hx. apply Hall. now right.
Qed.

Lemma col_min_const col c :
  col <> [] -> (forall x, In x col -> x == c) -> col_min col == c.
Proof.
  destruct col as [|a xs]; [congruence|]. intros _ Hall. simpl.
  apply fold_min_const; [apply Hall; now left | intros x Hx; apply Hall; now right].
Qed.

Lemma col_max_const col c :
  col <> [] -> (forall x, In x col -> x == c) -> col_max col == c.
Proof.
  destruct col as [|a xs]; [congruence|]. intros _ Hall. simpl.
  apply fold_max_const; [apply Hall; now left | intros x Hx; apply Hall; now right].
Qed.

End Column.
Import Column.

(** ** The scoring engine: [normalize] and the composite score *)

Module Scoring.

(** the constant [1e-6] of [normalize] *)
Definition epsilon : Q := 1 # 1000000.

(** One cell of [(col - col.min()) / (col.max() - col.min() + 1e-6)],
    given the column's minimum and maximum. *)
Definition scale (mn mx x : Q) : Q := (x - mn) / (mx - mn + epsilon).

(** [def normalize(col): return (col - col.min()) / (col.max() - col.min() + 1e-6)] *)
Definition normalize (col : list Q) : list Q :=
  map (scale (col_min col) (col_max col)) col.

(** the weights of the composite score, in the order of the formula *)
Definition w_cost : Q := 35 # 100.
Definition w_delay : Q := 25 # 100.
Definition w_distance : Q := 20 # 100.
Definition w_co2 : Q := 10 # 100.
Definition w_inventory : Q := 10 # 100.

Definition weights : list Q := [w_cost; w_delay; w_distance; w_co2; w_inventory].

(** [0.35 * cost_n + 0.25 * delay_risk + 0.20 * distance_n + 0.10 * co2_n
     + 0.10 * inventory_n] *)
Definition score (cost_n delay_risk distance_n co2_n inventory_n : Q) : Q :=
  w_cost * cost_n + w_delay * delay_risk + w_distance * distance_n
  + w_co2 * co2_n + w_inventory * inventory_n.

Lemma scale_denominator_pos mn mx : mn <= mx -> 0 < mx - mn + epsilon.
Proof. intro H. unfold epsilon. lra. Qed.

Lemma scale_bounds mn mx x : mn <= x -> x <= mx -> 0 <= scale mn mx x < 1.
Proof.
  intros Hl Hu. unfold scale.
  assert (Hd : 0 < mx - mn + epsilon) by (apply scale_denominator_pos; lra).
  split.
  - apply Qle_shift_div_l; [exact Hd | lra].
  - apply Qlt_shift_div_r; [exact Hd | unfold epsilon in *; lra].
Qed.

Lemma scale_at_min mn mx x : x == mn -> scale mn mx x == 0.
Proof.
  intro E. unfold scale. setoid_replace (x - mn) with 0 by lra.
  unfold Qdiv. apply Qmult_0_l.
Qed.

Lemma normalize_length col : List.length (normalize col) = List.length col.
Proof. unfold normalize. apply length_map. Qed.

Lemma normalize_entry col y :
  In y (normalize col) -> exists x, In x col /\ y = scale (col_min col) (col_max col) x.
Proof.
  unfold normalize. rewrite in_map_iff. intros (x & <- & Hx). now exists x.
Qed.

Lemma normalize_range col y : In y (normalize col) -> 0 <= y < 1.
Proof.
  intro Hy. destruct (normalize_entry col y Hy) as (x & Hx & ->).
  apply scale_bounds; [now apply col_min_le | now apply col_max_ge].
Qed.

Lemma normalize_const col c y :
  (forall x, In x col -> x == c) -> In y (normalize col) -> y == 0.
Proof.
  intros Hall Hy. destruct (normalize_entry col y Hy) as (x & Hx & ->).
  apply scale_at_min.
  assert (Hne : col <> []) by (intro E; subst col; contradiction).
  now rewrite (col_min_const col c Hne Hall), (Hall x Hx).
Qed.

End Scoring.
Import Scoring.

(** ** Text: lower-casing, suffixes and the pattern search of [str.contains] *)

Module Text.

Local Open Scope char_scope.
Local Open Scope string_scope.

Definition is_upper (c : ascii) : bool :=
  let n := nat_of_ascii c in (65 <=? n)%nat && (n <=? 90)%nat.

(** one character of [str.lower()] *)
Definition lower_char (c : ascii) : ascii :=
  if is_upper c then ascii_of_nat (nat_of_ascii c + 32) else c.

(** [s.lower()] *)
Fixpoint lower (s : string) : string :=
  match s with
  | EmptyString => EmptyString
  | String c rest => String (lower_char c) (lower rest)
  end.

(** [s.endswith(suffix)] *)
Definition endswith (s suffix : string) : bool :=
  let n := String.length s in
  let m := String.length suffix in
  (m <=? n)%nat && String.eqb (substring (n - m) m s) suffix.

(** *** [Series.str.contains(pat, case=False, na=False)]

    The call leaves [regex] at its default ([True]): [pat] is compiled as
    a regular expression with the flag [re.IGNORECASE] and searched for in
    every label.  The pattern language of [re] is modelled in two layers.
    The fragment made of ordinary characters, which match themselves up to
    case, and of the dot, which matches any character but a newline, is
    modelled in full ([compile] and [search]; [compile] gives [None] for a
    pattern with another special character).  Outside the fragment the
    program still runs the pattern, or [re] refuses it with [re.error]:
    a [PatternEngine], below, stands for [re] as a whole. *)
Inductive atom : Type :=
| Lit (c : ascii)
| AnyChar.

(** the special characters of the pattern language *)
Definition specials : list ascii :=
  list_ascii_of_string ".^$*+?{}[]\|()".

Definition is_special (c : ascii) : bool := existsb (Ascii.eqb c) specials.

Fixpoint compile (pat : string) : option (list atom) :=
  match pat with
  | EmptyString => Some []
  | String c rest =>
      match compile rest with
      | None => None
      | Some atoms =>
          if Ascii.eqb c "." then Some (AnyChar :: atoms)
          else if is_special c then None
          else Some (Lit c :: atoms)
      end
  end.

Definition newline : ascii := ascii_of_nat 10.

Definition atom_matches (a : atom) (c : ascii) : bool :=
  match a with
  | Lit p => Ascii.eqb (lower_char p) (lower_char c)
  | AnyChar => negb (Ascii.eqb c newline)
  end.

(** the atoms match a prefix of [s] *)
Fixpoint match_here (atoms : list atom) (s : string) : bool :=
  match atoms, s with
  | [], _ => true
  | _ :: _, EmptyString => false
  | a :: atoms', String c rest => atom_matches a c && match_here atoms' rest
  end.

(** [re.search]: the atoms match at some position of [s] *)
Fixpoint search (atoms : list atom) (s : string) : bool :=
  match_here atoms s ||
  match s with
  | EmptyString => false
  | String _ rest => search atoms rest
  end.

(** [re.compile(pat, re.IGNORECASE).search]: the search of a pattern in a
    text, or [None] when [re] refuses the pattern ([re.error]).  An engine
    is any such function that, on the patterns of the fragment, compiles
    them and searches as [search] does; what it does with the other
    patterns is left open. *)
Class PatternEngine : Type := {
  re_search : string -> option (string -> bool);
  re_search_fragment :
    forall (pat : string) (atoms : list atom),
      compile pat = Some atoms ->
      exists found, re_search pat = Some found /\
                    forall s, found s = search atoms s
}.

(** An engine that refuses every pattern outside the fragment: it runs the
    handler on sample requests, whose destinations are in the fragment. *)
Program Definition fragment_engine : PatternEngine := {|
  re_search := fun pat => option_map search (compile pat)
|}.
Next Obligation.
  exists (search atoms). split; [|reflexivity].
  match goal with H : compile _ = Some _ |- _ => now rewrite H end.
Qed.

(** The spec's words: the label contains the destination as a
    case-insensitive substring. *)
Definition ci_substring (destination label : string) : Prop :=
  exists before after, lower label = before ++ lower destination ++ after.

(** a destination without special characters *)
Definition plain (destination : string) : Prop :=
  forall c, In c (list_ascii_of_string destination) -> is_special c = false.

Lemma compile_plain destination :
  plain destination ->
  compile destination = Some (map Lit (list_ascii_of_string destination)).
Proof.
  unfold plain. induction destination as [|c rest IH]; intro Hp; simpl.
  - reflexivity.
  - rewrite IH by (intros d Hd; apply Hp; now right).
    assert (Hc : is_special c = false) by (apply Hp; now left).
    rewrite Hc. destruct (Ascii.eqb c ".") eqn:E; [|reflexivity].
    apply Ascii.eqb_eq in E. subst c. discriminate Hc.
Qed.

Lemma match_here_lits destination : forall s,
  match_here (map Lit (list_ascii_of_string destination)) s = true <->
  exists after, lower s = lower destination ++ after.
Proof.
  induction destination as [|c rest IH]; intro s; simpl.
  - split; [intros _; now exists (lower s) | reflexivity].
  - destruct s as [|d s']; simpl.
    + split; [discriminate | intros (after & E); discriminate E].
    + rewrite andb_true_iff, Ascii.eqb_eq, IH. split.
      * intros (Ec & after & E). exists after. now rewrite Ec, E.
      * intros (after & E). injection E as Ec E. split; [now symmetry | now exists after].
Qed.

Lemma search_lits destination : forall s,
  search (map Lit (list_ascii_of_string destination)) s = true <->
  ci_substring destination s.
Proof.
  unfold ci_substring. induction s as [|d s' IH].
  - simpl search. rewrite orb_false_r, match_here_lits. split.
    + intros (after & E). now exists "", after.
    + intros (before & after & E). simpl in E.
      destruct before; [now exists after | discriminate E].
  - simpl search. rewrite orb_true_iff, match_here_lits, IH. split.
    + intros [(after & E) | (before & after & E)].
      * now exists "", after.
      * exists (String (lower_char d) before), after. simpl. now rewrite E.
    + intros (before & after & E). destruct before as [|b before].
      * left. now exists after.
      * right. simpl in E. injection E as _ E. now exists before, after.
Qed.

End Text.
Import Text.

(** ** Sorting: [sort_values] and its [kind] *)

Module Sorting.

(** [DataFrame.sort_values(by)] sorts the rows in ascending order of one
    column with the algorithm named by [kind].  The program does not pass
    [kind], so the default (['quicksort']) is used, which is not a stable
    sort: what the call fixes is that the result holds the same rows in
    ascending order of the key, and no more.  A [SortKind] is one such
    algorithm. *)
Class SortKind : Type := {
  sort_by : forall {A : Type}, (A -> Q) -> list A -> list A;
  sort_by_permutation :
    forall (A : Type) (key : A -> Q) (l : list A), Permutation l (sort_by key l);
  sort_by_ascending :
    forall (A : Type) (key : A -> Q) (l : list A),
      StronglySorted (fun a b => key a <= key b) (sort_by key l)
}.

Section Insertion.
Context {A : Type}.
Variable before : A -> A -> bool.

(** [x] is put in front of the first element that it is [before] *)
Fixpoint insert (x : A) (l : list A) : list A :=
  match l with
  | [] => [x]
  | y :: ys => if before x y then x :: y :: ys else y :: insert x ys
  end.

Definition insertion_sort (l : list A) : list A := fold_right insert [] l.

Lemma insert_permutation x l : Permutation (x :: l) (insert x l).
Proof.
  induction l as [|y ys IH]; simpl.
  - apply Permutation_refl.
  - destruct (before x y).
    + apply Permutation_refl.
    + eapply Permutation_trans; [apply perm_swap | now apply perm_skip].
Qed.

Lemma insertion_sort_permutation l : Permutation l (insertion_sort l).
Proof.
  induction l as [|x xs IH]; simpl.
  - apply perm_nil.
  - eapply Permutation_trans; [apply perm_skip, IH | apply insert_permutation].
Qed.

Variable key : A -> Q.
Hypothesis before_le : forall x y, before x y = true -> key x <= key y.
Hypothesis not_before_ge : forall x y, before x y = false -> key y <= key x.

Let le_key (a b : A) : Prop := key a <= key b.

Lemma insert_sorted x l : StronglySorted le_key l -> StronglySorted le_key (insert x l).
Proof.
  induction 1 as [|y ys Hs IH Hall]; simpl.
  - constructor; constructor.
  - destruct (before x y) eqn:E.
    + constructor; [now constructor|].
      constructor; [now apply before_le|].
      apply Forall_forall. intros z Hz. rewrite Forall_forall in Hall.
      unfold le_key. eapply Qle_trans; [apply before_le, E | now apply Hall].
    + constructor; [exact IH|].
      apply Forall_forall. intros z Hz.
      apply (Permutation_in _ (Permutation_sym (insert_permutation x ys))) in Hz.
      destruct Hz as [<-|Hz].
      * now apply not_before_ge.
      * rewrite Forall_forall in Hall. now apply Hall.
Qed.

Lemma insertion_sort_sorted l : StronglySorted le_key (insertion_sort l).
Proof.
  induction l as [|x xs IH]; simpl; [constructor | now apply insert_sorted].
Qed.
End Insertion.

(** A stable kind ([kind='stable']): rows of equal key keep their order. *)
Definition stable_sort {A : Type} (key : A -> Q) : list A -> list A :=
  insertion_sort (fun x y => Qle_bool (key x) (key y)).

(** Another ascending sort: a row is put behind the rows of equal key. *)
Definition unstable_sort {A : Type} (key : A -> Q) : list A -> list A :=
  insertion_sort (fun x y => Qltb (key x) (key y)).

Lemma Qle_bool_false a b : Qle_bool a b = false -> b <= a.
Proof.
  intro E. apply Qlt_le_weak, Qnot_le_lt. intro L.
  apply Qle_bool_iff in L. congruence.
Qed.

Program Definition stable_kind : SortKind := {|
  sort_by := @stable_sort
|}.
Next Obligation. apply insertion_sort_permutation. Qed.
Next Obligation.
  apply insertion_sort_sorted.
  - intros x y E. now apply Qle_bool_iff.
  - intros x y E. now apply Qle_bool_false.
Qed.

Program Definition unstable_kind : SortKind := {|
  sort_by := @unstable_sort
|}.
Next Obligation. apply insertion_sort_permutation. Qed.
Next Obligation.
  apply insertion_sort_sorted.
  - intros x y E. apply Qlt_le_weak. now apply Qltb_lt.
  - intros x y E. unfold Qltb in E. apply negb_false_iff in E.
    now apply Qle_bool_iff.
Qed.

(** a kind that orders the rows as the stable sort does *)
Definition is_stable (K : SortKind) : Prop :=
  forall (A : Type) (key : A -> Q) (l : list A), sort_by key l = stable_sort key l.

(** The spec's words: [r] is the first row, in the order of [l], whose key
    is the minimum of the column. *)
Definition first_minimum {A : Type} (key : A -> Q) (l : list A) (r : A) : Prop :=
  exists earlier later,
    l = earlier ++ r :: later /\
    (forall x, In x earlier -> key r < key x) /\
    (forall x, In x later -> key r <= key x).

(** the head of a sorted permutation holds a minimum of the key *)
Lemma sorted_head_minimum {A : Type} (key : A -> Q) (l s : list A) :
  Permutation l s -> StronglySorted (fun a b => key a <= key b) s -> l <> [] ->
  exists r, hd_error s = Some r /\ In r l /\ forall x, In x l -> key r <= key x.
Proof.
  intros Hp Hs Hne. destruct s as [|r s'].
  - apply Permutation_sym, Permutation_nil in Hp. contradiction.
  - exists r. split; [reflexivity|]. split.
    + apply (Permutation_in _ (Permutation_sym Hp)). now left.
    + intros x Hx. apply (Permutation_in _ Hp) in Hx. destruct Hx as [<-|Hx].
      * apply Qle_refl.
      * apply StronglySorted_inv in Hs. destruct Hs as [_ Hall].
        rewrite Forall_forall in Hall. now apply Hall.
Qed.

(** the head of the stable sort is the first minimum *)
Lemma stable_sort_head {A : Type} (key : A -> Q) (l : list A) :
  l <> [] -> exists r, hd_error (stable_sort key l) = Some r /\ first_minimum key l r.
Proof.
  induction l as [|x xs IH]; [congruence|]. intros _.
  destruct xs as [|y ys].
  - exists x. split; [reflexivity|]. exists [], []. repeat split; intros z [].
  - destruct IH as (r & Hr & earlier & later & El & He & Hl); [discriminate|].
    unfold stable_sort, insertion_sort in *. cbn [fold_right].
    cbn [fold_right] in Hr.
    destruct (insert _ y (fold_right _ [] ys)) as [|h t] eqn:Es; [discriminate|].
    injection Hr as ->. cbn [insert].
    destruct (Qle_bool (key x) (key r)) eqn:E.
    + exists x. split; [reflexivity|]. exists [], (y :: ys).
      split; [reflexivity|]. split; [intros z []|].
      intros z Hz. apply Qle_bool_iff in E. rewrite El in Hz.
      apply in_app_or in Hz. destruct Hz as [Hz|[<-|Hz]].
      * eapply Qle_trans; [exact E | apply Qlt_le_weak; now apply He].
      * exact E.
      * eapply Qle_trans; [exact E | now apply Hl].
    + exists r. split; [reflexivity|]. exists (x :: earlier), later.
      split; [now rewrite El|]. split; [|exact Hl].
      intros z [<-|Hz]; [|now apply He].
      apply Qnot_le_lt. intro L. apply Qle_bool_iff in L. congruence.
Qed.

(** there is one first minimum at most *)
Lemma first_minimum_unique {A : Type} (key : A -> Q) (l : list A) (r r' : A) :
  first_minimum key l r -> first_minimum key l r' -> r = r'.
Proof.
  intros (e1 & l1 & E1 & He1 & Hl1) (e2 & l2 & E2 & He2 & Hl2).
  subst l. revert e2 E2 He2. induction e1 as [|x e1 IH]; intros e2 E2 He2.
  - destruct e2 as [|y e2]; simpl in E2.
    + now injection E2.
    + injection E2 as <- ->. exfalso.
      assert (H1 : key r' < key r) by (apply He2; now left).
      assert (H2 : key r <= key r') by (apply Hl1, in_or_app; right; now left).
      apply (Qlt_not_le _ _ H1 H2).
  - destruct e2 as [|y e2]; simpl in E2.
    + injection E2 as -> <-. exfalso.
      assert (H1 : key r < key r') by (apply He1; now left).
      assert (H2 : key r' <= key r) by (apply Hl2, in_or_app; right; now left).
      apply (Qlt_not_le _ _ H1 H2).
    + injection E2 as -> E2. apply (IH (fun z Hz => He1 z (or_intror Hz)) e2 E2).
      intros z Hz. apply He2. now right.
Qed.

End Sorting.
Import Sorting.

(** ** The tables

    One record per row, with the column names of the files after
    [clean_columns].  A cell of the routes, delivery and cost tables may be
    missing (an [option]): the program fills these.  The warehouse and fleet
    tables are used as they are read, and their cells are taken to be
    present. *)

Module Warehouse.
Record row : Type := {
  location : string;
  product_category : string;
  current_stock_units : Q;
  reorder_level : Q
}.
End Warehouse.

Module Fleet.
Record row : Type := {
  vehicle_type : string;
  fuel_efficiency_km_per_l : Q;
  co2_emissions_kg_per_km : Q
}.
End Fleet.

Module Delivery.
Record row : Type := {
  order_id : string;
  delivery_status : option string;
  promised_delivery_days : option Q;
  actual_delivery_days : option Q;
  delivery_cost_inr : option Q
}.
End Delivery.

Module Costs.
(** [cells] are the columns of the cost table other than [order_id], by
    name. *)
Record row : Type := {
  order_id : string;
  cells : list (string * option Q)
}.
End Costs.

(** A cell of an object column after [fillna(0)]: text, or the number that
    filled a missing cell. *)
Inductive obj : Type :=
| Str (s : string)
| Num (q : Q).

Module RawRoutes.
(** A row of [routes_distance.csv].  [traffic_delay_minutes] is the cell as
    [pd.to_numeric(errors="coerce")] reads it: [None] when it is missing or
    not a number. *)
Record row : Type := {
  order_id : string;
  route : option string;
  distance_km : option Q;
  traffic_delay_minutes : option Q;
  weather_impact : option string
}.
End RawRoutes.

Module Merged.
(** A row of [routes] after the two merges, before the missing cells are
    filled. *)
Record row : Type := {
  order_id : string;
  route : option string;
  distance_km : option Q;
  traffic_delay_minutes : Q;
  weather_impact : Q;
  delivery_status : option string;
  promised_delivery_days : option Q;
  actual_delivery_days : option Q;
  delivery_cost_inr : option Q;
  total_cost : option Q
}.
End Merged.

Module Routes.
(** A row of [routes] as the request handler reads it. *)
Record row : Type := {
  order_id : string;
  route : obj;
  distance_km : Q;
  traffic_delay_minutes : Q;
  weather_impact : Q;
  delivery_status : obj;
  promised_delivery_days : Q;
  actual_delivery_days : Q;
  delivery_cost_inr : Q;
  total_cost : Q
}.
End Routes.

(** ** Pre-processing *)

Module Preprocessing.

Local Open Scope string_scope.

(** [[col for col in costs.columns if col.endswith("_inr") and col != "order_id"]] *)
Definition is_cost_column (col : string) : bool :=
  endswith col "_inr" && negb (String.eqb col "order_id").

Definition cost_columns (columns : list string) : list string :=
  filter is_cost_column columns.

(** the columns of the cost table *)
Definition columns (r : Costs.row) : list string :=
  "order_id" :: map fst (Costs.cells r).

(** a missing cell is skipped by [sum], [mean] and [median] *)
Definition or_zero (c : option Q) : Q :=
  match c with
  | Some q => q
  | None => 0
  end.

(** [costs[cost_columns]], for one row: for every name of [cost_columns],
    in order, the cells of all the columns that bear that name (columns
    that [clean_columns] gave one name are selected once for each time the
    name is listed) *)
Definition selected_cells (r : Costs.row) : list (option Q) :=
  flat_map (fun col =>
              map snd (filter (fun c => String.eqb (fst c) col) (Costs.cells r)))
           (cost_columns (columns r)).

(** [costs[cost_columns].sum(axis=1)], for one row *)
Definition total_cost (r : Costs.row) : Q :=
  col_sum (map or_zero (selected_cells r)).

(** [weather_mapping = {"low": 1, "medium": 2, "high": 3, "severe": 4}] *)
Definition weather_mapping (label : string) : option Q :=
  if String.eqb label "low" then Some 1
  else if String.eqb label "medium" then Some 2
  else if String.eqb label "high" then Some 3
  else if String.eqb label "severe" then Some 4
  else None.

(** [astype(str)]: a missing cell becomes the text [nan] *)
Definition astype_str (c : option string) : string :=
  match c with
  | Some s => s
  | None => "nan"
  end.

(** [routes["weather_impact"].astype(str).str.lower().map(weather_mapping).fillna(0)] *)
Definition weather_ordinal (c : option string) : Q :=
  or_zero (weather_mapping (lower (astype_str c))).

(** [merge(..., on="order_id", how="left")]: every left row, in order, with
    each right row of the same key, or once with nothing when there is
    none. *)
Definition left_join {L R M : Type} (key_l : L -> string) (key_r : R -> string)
    (glue : L -> option R -> M) (left : list L) (right : list R) : list M :=
  flat_map (fun l =>
    match filter (fun r => String.eqb (key_r r) (key_l l)) right with
    | [] => [glue l None]
    | matches => map (fun r => glue l (Some r)) matches
    end) left.

(** the cells of a column that are not missing *)
Definition present (col : list (option Q)) : list Q :=
  flat_map (fun c => match c with Some q => [q] | None => [] end) col.

(** [col.median()]: the middle of the sorted present cells, the mean of the
    two middle ones when their number is even, and NaN ([None]) when no
    cell is present. *)
Definition median (col : list (option Q)) : option Q :=
  let vals := stable_sort (fun q => q) (present col) in
  let n := List.length vals in
  match n with
  | O => None
  | _ =>
      if Nat.even n
      then Some ((nth (n / 2 - 1) vals 0 + nth (n / 2) vals 0) / 2)
      else Some (nth (n / 2) vals 0)
  end.

(** [col.fillna(value)], where the value itself may be NaN *)
Definition fillna (value : option Q) (c : option Q) : option Q :=
  match c with
  | Some q => Some q
  | None => value
  end.

Definition fill_obj (c : option string) : obj :=
  match c with
  | Some s => Str s
  | None => Num 0
  end.

(** the weather ordinals, the numeric traffic delay and the first merge *)
Definition with_delivery (r : RawRoutes.row) (d : option Delivery.row)
    (total : option Q) : Merged.row :=
  {| Merged.order_id := RawRoutes.order_id r;
     Merged.route := RawRoutes.route r;
     Merged.distance_km := RawRoutes.distance_km r;
     Merged.traffic_delay_minutes := or_zero (RawRoutes.traffic_delay_minutes r);
     Merged.weather_impact := weather_ordinal (RawRoutes.weather_impact r);
     Merged.delivery_status :=
       match d with Some d => Delivery.delivery_status d | None => None end;
     Merged.promised_delivery_days :=
       match d with Some d => Delivery.promised_delivery_days d | None => None end;
     Merged.actual_delivery_days :=
       match d with Some d => Delivery.actual_delivery_days d | None => None end;
     Merged.delivery_cost_inr :=
       match d with Some d => Delivery.delivery_cost_inr d | None => None end;
     Merged.total_cost := total |}.

Definition with_total_cost (m : Merged.row) (c : option Costs.row) : Merged.row :=
  {| Merged.order_id := Merged.order_id m;
     Merged.route := Merged.route m;
     Merged.distance_km := Merged.distance_km m;
     Merged.traffic_delay_minutes := Merged.traffic_delay_minutes m;
     Merged.weather_impact := Merged.weather_impact m;
     Merged.delivery_status := Merged.delivery_status m;
     Merged.promised_delivery_days := Merged.promised_delivery_days m;
     Merged.actual_delivery_days := Merged.actual_delivery_days m;
     Merged.delivery_cost_inr := Merged.delivery_cost_inr m;
     Merged.total_cost :=
       match c with Some c => Some (total_cost c) | None => None end |}.

(** the two [routes.merge(...)] *)
Definition merge (routes : list RawRoutes.row) (delivery : list Delivery.row)
    (costs : list Costs.row) : list Merged.row :=
  let routes1 :=
    left_join RawRoutes.order_id Delivery.order_id
      (fun r d => with_delivery r d None) routes delivery in
  left_join Merged.order_id Costs.order_id with_total_cost routes1 costs.

(** [routes["total_cost"] = routes["total_cost"].fillna(routes["total_cost"].median())]
    and then [routes.fillna(0, inplace=True)], for one row; [med] is the
    median of the column, taken before the fill. *)
Definition fill (med : option Q) (m : Merged.row) : Routes.row :=
  {| Routes.order_id := Merged.order_id m;
     Routes.route := fill_obj (Merged.route m);
     Routes.distance_km := or_zero (Merged.distance_km m);
     Routes.traffic_delay_minutes := Merged.traffic_delay_minutes m;
     Routes.weather_impact := Merged.weather_impact m;
     Routes.delivery_status := fill_obj (Merged.delivery_status m);
     Routes.promised_delivery_days := or_zero (Merged.promised_delivery_days m);
     Routes.actual_delivery_days := or_zero (Merged.actual_delivery_days m);
     Routes.delivery_cost_inr := or_zero (Merged.delivery_cost_inr m);
     Routes.total_cost := or_zero (fillna med (Merged.total_cost m)) |}.

Definition fill_table (merged : list Merged.row) : list Routes.row :=
  map (fill (median (map Merged.total_cost merged))) merged.

(** the table [routes] of the request handler *)
Definition enrich (routes : list RawRoutes.row) (delivery : list Delivery.row)
    (costs : list Costs.row) : list Routes.row :=
  fill_table (merge routes delivery costs).

Example cost_columns_example :
  cost_columns ["order_id"; "fuel_cost_inr"; "weight_kg"; "toll_charges_inr"; "inr"]
  = ["fuel_cost_inr"; "toll_charges_inr"].
Proof. reflexivity. Qed.

Example total_cost_example :
  total_cost {| Costs.order_id := "O1";
                Costs.cells := [("fuel_cost_inr", Some 100); ("labor_cost_inr", None);
                                ("weight_kg", Some 5); ("toll_charges_inr", Some 20)] |}
  = 120.
Proof. reflexivity. Qed.

Example median_odd : median [Some 3; None; Some 1; Some 2] = Some 2.
Proof. reflexivity. Qed.

Example median_even : median [Some 4; None; Some 1] = Some ((1 + 4) / 2).
Proof. reflexivity. Qed.

Example median_all_missing : median [None; None] = None.
Proof. reflexivity. Qed.

Example weather_severe : weather_ordinal (Some "Severe") = 4.
Proof. reflexivity. Qed.

Example weather_missing : weather_ordinal None = 0.
Proof. reflexivity. Qed.

End Preprocessing.
Import Preprocessing.

(** ** The request handler (the [if submit:] block) *)

Module Engine.

(** the choices of the "Delivery Priority" select box *)
Inductive Priority : Type := Express | Standard | Economy.

(** the tables the handler reads *)
Record Tables : Type := {
  warehouse : list Warehouse.row;
  fleet : list Fleet.row;
  routes : list Routes.row
}.

(** one dictionary appended to [options] *)
Record Candidate : Type := {
  c_warehouse : string;
  c_vehicle : string;
  distance_km : Q;
  traffic_delay_minutes : Q;
  weather_impact : Q;
  fuel_efficiency : Q;
  co2 : Q;
  cost : Q;
  inventory_health : Q
}.

(** one row of [options_df] after the scoring engine has added its columns *)
Record Scored : Type := {
  candidate : Candidate;
  cost_n : Q;
  delay_risk : Q;
  distance_n : Q;
  co2_n : Q;
  inventory_n : Q;
  fulfillment_score : Q
}.

(** How a request ends when it gives no recommendation: the two
    [st.stop()] and the exceptions Python raises (on a label column without
    text, on a destination that [re] refuses as a pattern, on an empty
    frame). *)
Inductive Condition : Type :=
| NoInventory
| NoRoute
| AttributeError
| ReError
| KeyError
| IndexError.

Inductive Result (A : Type) : Type :=
| Ok (a : A)
| Stop (c : Condition).
Arguments Ok {A} a.
Arguments Stop {A} c.

Definition bind {A B : Type} (m : Result A) (k : A -> Result B) : Result B :=
  match m with
  | Ok a => k a
  | Stop c => Stop c
  end.

Notation "x <- m ;; k" := (bind m (fun x => k))
  (at level 61, m at next level, right associativity).

Definition is_empty {A : Type} (l : list A) : bool :=
  match l with
  | [] => true
  | _ :: _ => false
  end.

(** [warehouse[(warehouse["product_category"] == product) &
               (warehouse["current_stock_units"] > warehouse["reorder_level"])]] *)
Definition eligible (product : string) (w : Warehouse.row) : bool :=
  String.eqb (Warehouse.product_category w) product
  && Qltb (Warehouse.reorder_level w) (Warehouse.current_stock_units w).

Definition available_wh (warehouse : list Warehouse.row) (product : string)
    : list Warehouse.row :=
  filter (eligible product) warehouse.

(** One cell of [routes["route"].str.contains(destination, case=False,
    na=False)]: the compiled pattern, [found], is searched for in a label
    that is text; any other cell gives [na], that is [False]. *)
Definition str_contains (found : string -> bool) (label : obj) : bool :=
  match label with
  | Str s => found s
  | Num _ => false
  end.

Definition is_text (label : obj) : bool :=
  match label with
  | Str _ => true
  | Num _ => false
  end.

(** [routes["route"].str]: the accessor is refused, with an
    [AttributeError], on a column that has rows and no text in any of them
    (every label was missing, and the column holds the zeros of
    [fillna]). *)
Definition str_accessor (labels : list obj) : bool :=
  is_empty labels || existsb is_text labels.

Definition route_data (routes : list Routes.row) (found : string -> bool)
    : list Routes.row :=
  filter (fun r => str_contains found (Routes.route r)) routes.

(** the body of the two nested loops *)
Definition make_option (avg_distance avg_traffic avg_weather avg_cost : Q)
    (wh : Warehouse.row) (v : Fleet.row) : Candidate :=
  {| c_warehouse := Warehouse.location wh;
     c_vehicle := Fleet.vehicle_type v;
     distance_km := avg_distance;
     traffic_delay_minutes := avg_traffic;
     weather_impact := avg_weather;
     fuel_efficiency := Fleet.fuel_efficiency_km_per_l v;
     co2 := Fleet.co2_emissions_kg_per_km v * avg_distance;
     cost := avg_cost;
     inventory_health := Warehouse.current_stock_units wh - Warehouse.reorder_level wh |}.

(** [for _, wh in available_wh.iterrows(): for _, v in fleet.iterrows():
      options.append({...})] *)
Definition options (available : list Warehouse.row) (fleet : list Fleet.row)
    (route_data : list Routes.row) : list Candidate :=
  let avg_distance := col_mean (map Routes.distance_km route_data) in
  let avg_traffic := col_mean (map Routes.traffic_delay_minutes route_data) in
  let avg_weather := col_mean (map Routes.weather_impact route_data) in
  let avg_cost := col_mean (map Routes.total_cost route_data) in
  flat_map (fun wh =>
    map (make_option avg_distance avg_traffic avg_weather avg_cost wh) fleet)
    available.

Section Handler.
Context {E : PatternEngine} {K : SortKind}.

(** Steps 1 to 3 of the handler.  [priority] is read from the side bar with
    the other two inputs; the handler never looks at it. *)
Definition generate (t : Tables) (product : string) (priority : Priority)
    (destination : string) : Result (list Candidate) :=
  let available := available_wh (warehouse t) product in
  if is_empty available then Stop NoInventory
  else if negb (str_accessor (map Routes.route (routes t))) then Stop AttributeError
  else
    match re_search destination with
    | None => Stop ReError
    | Some found =>
        let rd := route_data (routes t) found in
        if is_empty rd then Stop NoRoute
        else Ok (options available (fleet t) rd)
    end.

(** Step 4, the scoring engine: the five normalised columns and the score
    column are computed column by column, as on the data frame, and put
    together with the rows. *)
Definition scored_columns (opts : list Candidate) : list Scored :=
  let cost_n := normalize (map cost opts) in
  let delay_risk :=
    normalize (col_add (map traffic_delay_minutes opts) (map weather_impact opts)) in
  let distance_n := normalize (map distance_km opts) in
  let co2_n := normalize (map co2 opts) in
  let inventory_n := map (fun x => 1 - x) (normalize (map inventory_health opts)) in
  map (fun '(o, (c, (d, (di, (co, inv))))) =>
         {| candidate := o; cost_n := c; delay_risk := d; distance_n := di;
            co2_n := co; inventory_n := inv;
            fulfillment_score := score c d di co inv |})
      (combine opts (combine cost_n (combine delay_risk
        (combine distance_n (combine co2_n inventory_n))))).

(** [pd.DataFrame([])] has no column: [options_df["cost"]] raises. *)
Definition scoring (opts : list Candidate) : Result (list Scored) :=
  if is_empty opts then Stop KeyError else Ok (scored_columns opts).

(** [options_df.sort_values("fulfillment_score").iloc[0]]; on an empty frame
    [iloc[0]] raises ([None]). *)
Definition best_option (options_df : list Scored) : option Scored :=
  hd_error (sort_by fulfillment_score options_df).

(** the handler: the scored table and the recommended row *)
Definition submit (t : Tables) (product : string) (priority : Priority)
    (destination : string) : Result (list Scored * Scored) :=
  opts <- generate t product priority destination ;;
  options_df <- scoring opts ;;
  match best_option options_df with
  | Some best => Ok (options_df, best)
  | None => Stop IndexError
  end.

End Handler.

End Engine.
Import Engine.

(** ** The scored table, row by row *)

Module Rows.

(** the statistics [normalize] takes from a column *)
Definition stat (col : list Q) (x : Q) : Q := scale (col_min col) (col_max col) x.

Definition delay (o : Candidate) : Q := traffic_delay_minutes o + weather_impact o.

(** the row of [options_df] that belongs to the option [o] of [opts] *)
Definition score_row (opts : list Candidate) (o : Candidate) : Scored :=
  let c := stat (map cost opts) (cost o) in
  let d := stat (map delay opts) (delay o) in
  let di := stat (map distance_km opts) (distance_km o) in
  let co := stat (map co2 opts) (co2 o) in
  let inv := 1 - stat (map inventory_health opts) (inventory_health o) in
  {| candidate := o; cost_n := c; delay_risk := d; distance_n := di;
     co2_n := co; inventory_n := inv;
     fulfillment_score := score c d di co inv |}.

Lemma combine_map_map {A B C : Type} (f : A -> B) (g : A -> C) (l : list A) :
  combine (map f l) (map g l) = map (fun x => (f x, g x)) l.
Proof. induction l as [|x xs IH]; simpl; [reflexivity | now rewrite IH]. Qed.

Lemma combine_self_map {A B : Type} (g : A -> B) (l : list A) :
  combine l (map g l) = map (fun x => (x, g x)) l.
Proof. induction l as [|x xs IH]; simpl; [reflexivity | now rewrite IH]. Qed.

Lemma normalize_map {A : Type} (f : A -> Q) (l : list A) :
  normalize (map f l) = map (fun x => stat (map f l) (f x)) l.
Proof. unfold normalize, stat. now rewrite map_map. Qed.

Lemma col_add_map {A : Type} (f g : A -> Q) (l : list A) :
  col_add (map f l) (map g l) = map (fun x => f x + g x) l.
Proof. unfold col_add. now rewrite combine_map_map, map_map. Qed.

(** the column-wise computation gives, for every option, its row *)
Lemma scored_columns_rows opts : scored_columns opts = map (score_row opts) opts.
Proof.
  unfold scored_columns. rewrite col_add_map.
  rewrite !normalize_map, map_map.
  rewrite !combine_map_map, combine_self_map, map_map.
  apply map_ext. intro o. reflexivity.
Qed.

Lemma scored_columns_length opts : List.length (scored_columns opts) = List.length opts.
Proof. rewrite scored_columns_rows. apply length_map. Qed.

(** the scored table has the candidates as its rows, in their order *)
Lemma scored_columns_candidates opts : map candidate (scored_columns opts) = opts.
Proof.
  rewrite scored_columns_rows, map_map. cbn [score_row candidate]. apply map_id.
Qed.

Lemma scored_columns_in opts r :
  In r (scored_columns opts) -> exists o, In o opts /\ r = score_row opts o.
Proof.
  rewrite scored_columns_rows, in_map_iff. intros (o & <- & Ho). now exists o.
Qed.

Lemma stat_range {A : Type} (f : A -> Q) (l : list A) (x : A) :
  In x l -> 0 <= stat (map f l) (f x) < 1.
Proof.
  intro Hx. apply scale_bounds; [apply col_min_le | apply col_max_ge]; now apply in_map.
Qed.

(** a column that holds one value in every row normalises to zeros *)
Lemma stat_const {A : Type} (f : A -> Q) (l : list A) (c : Q) (x : A) :
  (forall y, In y l -> f y == c) -> In x l -> stat (map f l) (f x) == 0.
Proof.
  intros Hall Hx. apply scale_at_min.
  assert (Hne : map f l <> []) by (destruct l; [contradiction | discriminate]).
  rewrite (col_min_const (map f l) c Hne).
  - now apply Hall.
  - intros q Hq. apply in_map_iff in Hq. destruct Hq as (y & <- & Hy). now apply Hall.
Qed.

End Rows.
Import Rows.

(** ** Column names: [clean_columns] *)

Module Names.

Local Open Scope string_scope.

(** the characters [str.strip()] removes from both ends: the ASCII white
    space of Python (tab to carriage return, the four separators, the
    space) *)
Definition is_space (c : ascii) : bool :=
  let n := nat_of_ascii c in
  ((9 <=? n)%nat && (n <=? 13)%nat) || ((28 <=? n)%nat && (n <=? 32)%nat).

Fixpoint lstrip (s : string) : string :=
  match s with
  | EmptyString => EmptyString
  | String c rest => if is_space c then lstrip rest else s
  end.

Fixpoint rstrip (s : string) : string :=
  match s with
  | EmptyString => EmptyString
  | String c rest =>
      match rstrip rest with
      | EmptyString => if is_space c then EmptyString else String c EmptyString
      | rest' => String c rest'
      end
  end.

(** [s.strip()] *)
Definition strip (s : string) : string := rstrip (lstrip s).

(** [s.replace(" ", "_")] *)
Fixpoint replace_spaces (s : string) : string :=
  match s with
  | EmptyString => EmptyString
  | String c rest =>
      String (if Ascii.eqb c " " then "_"%char else c) (replace_spaces rest)
  end.

(** one name of [df.columns.str.strip().str.lower().str.replace(" ", "_")] *)
Definition clean_column (name : string) : string :=
  replace_spaces (lower (strip name)).

(** [def clean_columns(df)], on the header of the frame *)
Definition clean_columns (columns : list string) : list string :=
  map clean_column columns.

Example clean_column_example : clean_column "  Order ID " = "order_id".
Proof. reflexivity. Qed.

Example clean_column_inner : clean_column "Fuel Cost  INR" = "fuel_cost__inr".
Proof. reflexivity. Qed.

(** a name without white space at either end *)
Definition trimmed (s : string) : Prop := lstrip s = s /\ rstrip s = s.

Lemma lstrip_head s :
  lstrip s = EmptyString \/
  exists c rest, lstrip s = String c rest /\ is_space c = false.
Proof.
  induction s as [|c rest IH]; simpl; [now left|].
  destruct (is_space c) eqn:E; [exact IH|]. right. now exists c, rest.
Qed.

Lemma rstrip_idempotent s : rstrip (rstrip s) = rstrip s.
Proof.
  induction s as [|c rest IH]; simpl; [reflexivity|].
  destruct (rstrip rest) as [|d rest'] eqn:E.
  - destruct (is_space c) eqn:Ec; simpl; [reflexivity | now rewrite Ec].
  - cbn [rstrip]. cbn [rstrip] in IH. now rewrite IH.
Qed.

Lemma strip_trimmed s : trimmed (strip s).
Proof.
  unfold trimmed, strip. split; [|apply rstrip_idempotent].
  destruct (lstrip_head s) as [-> | (c & rest & -> & Hc)]; [reflexivity|].
  simpl. rewrite Hc. destruct (rstrip rest); simpl; now rewrite Hc.
Qed.

(** a change of characters that makes no white space out of another
    character keeps a name trimmed *)
Section CharMap.
Variable g : ascii -> ascii.
Hypothesis g_not_space : forall c, is_space c = false -> is_space (g c) = false.

Fixpoint smap (s : string) : string :=
  match s with
  | EmptyString => EmptyString
  | String c rest => String (g c) (smap rest)
  end.

Lemma lstrip_smap s : lstrip s = s -> lstrip (smap s) = smap s.
Proof.
  destruct s as [|c rest]; simpl; [reflexivity|].
  destruct (is_space c) eqn:E.
  - intro H. exfalso.
    assert (Hl : forall t, (String.length (lstrip t) <= String.length t)%nat).
    { induction t as [|d t IH]; simpl; [lia|]. destruct (is_space d); simpl; lia. }
    specialize (Hl rest). rewrite H in Hl. simpl in Hl. lia.
  - intros _. now rewrite (g_not_space c E).
Qed.

Lemma rstrip_smap s : rstrip s = s -> rstrip (smap s) = smap s.
Proof.
  induction s as [|c rest IH]; simpl; [reflexivity|].
  destruct (rstrip rest) as [|d rest'] eqn:E.
  - destruct (is_space c) eqn:Ec; [discriminate|].
    intro H. injection H as <-. simpl. now rewrite (g_not_space c Ec).
  - intro H. injection H as H. rewrite H in IH. rewrite (IH eq_refl).
    rewrite <- H. reflexivity.
Qed.

Lemma trimmed_smap s : trimmed s -> trimmed (smap s).
Proof. intros [Hl Hr]. split; [now apply lstrip_smap | now apply rstrip_smap]. Qed.
End CharMap.

Lemma lower_smap s : lower s = smap lower_char s.
Proof. induction s as [|c rest IH]; simpl; [reflexivity | now rewrite IH]. Qed.

Lemma replace_spaces_smap s :
  replace_spaces s = smap (fun c => if Ascii.eqb c " " then "_"%char else c) s.
Proof. induction s as [|c rest IH]; simpl; [reflexivity | now rewrite IH]. Qed.

Ltac each_char c := destruct c as [[] [] [] [] [] [] [] []]; try reflexivity.

Lemma lower_char_not_space c : is_space c = false -> is_space (lower_char c) = false.
Proof. each_char c; discriminate. Qed.

Lemma underscore_not_space c :
  is_space c = false -> is_space (if Ascii.eqb c " " then "_"%char else c) = false.
Proof. each_char c; discriminate. Qed.

Lemma lower_char_idempotent c : lower_char (lower_char c) = lower_char c.
Proof. each_char c. Qed.

Lemma lower_char_not_upper c : is_upper (lower_char c) = false.
Proof. each_char c. Qed.

Lemma underscore_keeps_lower c :
  lower_char (if Ascii.eqb c " " then "_"%char else c)
  = if Ascii.eqb (lower_char c) " " then "_"%char else lower_char c.
Proof. each_char c. Qed.

End Names.
Import Names.

(** ** The side bar: the choices offered to the user *)

Module Orders.
(** the two columns of [orders.csv] the program reads *)
Record row : Type := {
  product_category : string;
  destination : string
}.
End Orders.

Module Sidebar.

Definition mem (x : string) (l : list string) : bool := existsb (String.eqb x) l.

(** [Series.unique()]: the values in the order of their first appearance;
    [seen] holds the values met so far *)
Fixpoint unique_from (seen l : list string) : list string :=
  match l with
  | [] => []
  | x :: xs =>
      if mem x seen then unique_from seen xs
      else x :: unique_from (x :: seen) xs
  end.

Definition unique (l : list string) : list string := unique_from [] l.

(** [orders["product_category"].unique()] and [orders["destination"].unique()] *)
Definition product_options (orders : list Orders.row) : list string :=
  unique (map Orders.product_category orders).

Definition destination_options (orders : list Orders.row) : list string :=
  unique (map Orders.destination orders).

Lemma mem_In x l : mem x l = true <-> In x l.
Proof.
  unfold mem. rewrite existsb_exists. split.
  - intros (y & Hy & E). apply String.eqb_eq in E. now subst y.
  - intro H. exists x. split; [exact H | apply String.eqb_refl].
Qed.

Lemma unique_from_In seen l x :
  In x (unique_from seen l) <-> In x l /\ ~ In x seen.
Proof.
  revert seen. induction l as [|y ys IH]; intro seen; simpl.
  - tauto.
  - destruct (mem y seen) eqn:E.
    + apply mem_In in E. rewrite IH. split.
      * intros [H1 H2]. tauto.
      * intros [[<-|H1] H2]; [contradiction | tauto].
    + assert (Hn : ~ In y seen) by (intro H; apply mem_In in H; congruence).
      simpl. rewrite IH. simpl. split.
      * intros [<-|[H1 H2]]; [tauto|]. split; [tauto|]. intro H. apply H2. now right.
      * intros [[<-|H1] H2]; [now left|].
        destruct (String.eqb_spec y x) as [->|Hne]; [now left|].
        right. split; [exact H1|]. intros [E'|H]; [contradiction | contradiction].
Qed.

Lemma unique_from_NoDup seen l : NoDup (unique_from seen l).
Proof.
  revert seen. induction l as [|y ys IH]; intro seen; simpl.
  - constructor.
  - destruct (mem y seen); [apply IH|].
    constructor; [|apply IH]. rewrite unique_from_In. intros [_ H]. apply H. now left.
Qed.

Lemma unique_from_snoc l : forall seen x,
  unique_from seen (l ++ [x])
  = unique_from seen l ++ (if mem x seen || mem x l then [] else [x]).
Proof.
  induction l as [|y ys IH]; intros seen x; simpl.
  - rewrite orb_false_r. destruct (mem x seen); reflexivity.
  - destruct (mem y seen) eqn:E.
    + rewrite IH. f_equal. unfold mem at 4. cbn [existsb]. fold (mem x ys).
      destruct (String.eqb_spec x y) as [->|Hne]; [|reflexivity].
      now rewrite E.
    + cbn [app]. rewrite IH. f_equal. f_equal.
      unfold mem at 1 4. cbn [existsb]. fold (mem x seen) (mem x ys).
      destruct (String.eqb x y), (mem x seen), (mem x ys); reflexivity.
Qed.

End Sidebar.
Import Sidebar.

(** ** The display of the recommendation *)

Module Display.

(** [r] of [radar_data]: the five normalised features of the best option,
    in the order of the axes *)
Definition radar (best : Scored) : list Q :=
  [cost_n best; delay_risk best; distance_n best; co2_n best; inventory_n best].

(** [available_wh[available_wh["location"] == best_option["warehouse"]].iloc[0]];
    [iloc[0]] raises on an empty selection ([None]) *)
Definition rec_wh_data (available : list Warehouse.row) (best : Scored)
    : option Warehouse.row :=
  hd_error (filter (fun w => String.eqb (Warehouse.location w)
                                        (c_warehouse (candidate best))) available).

(** the numbers of the inventory gauge *)
Record Gauge : Type := {
  value : Q;
  axis_max : Q;
  red_until : Q;
  threshold : Q
}.

(** [go.Indicator(value=rec_wh_data["current_stock_units"],
      gauge={'axis': {'range': [0, current_stock_units * 1.5]},
             'steps': [{'range': [0, reorder_level], ...}],
             'threshold': {..., 'value': reorder_level}})] *)
Definition fig_gauge (w : Warehouse.row) : Gauge :=
  {| value := Warehouse.current_stock_units w;
     axis_max := Warehouse.current_stock_units w * (15 # 10);
     red_until := Warehouse.reorder_level w;
     threshold := Warehouse.reorder_level w |}.

(** the labels of an axis of a pivot table: the values, once each, in
    ascending order *)
Definition axis_labels (l : list string) : list string :=
  insertion_sort String.leb (unique l).

(** the rows of [options_df] of one warehouse and one vehicle *)
Definition group (options_df : list Scored) (w v : string) : list Scored :=
  filter (fun r => String.eqb (c_warehouse (candidate r)) w
                   && String.eqb (c_vehicle (candidate r)) v) options_df.

(** one cell of the pivot table: the mean of [delay_risk] over the group,
    NaN ([None]) for an empty group *)
Definition pivot_cell (options_df : list Scored) (w v : string) : option Q :=
  match group options_df w v with
  | [] => None
  | g => Some (col_mean (map delay_risk g))
  end.

(** [options_df.pivot_table(index='warehouse', columns='vehicle',
    values='delay_risk')]: a row for every warehouse, a cell for every
    vehicle *)
Definition heatmap_data (options_df : list Scored)
    : list (string * list (string * option Q)) :=
  let index := axis_labels (map (fun r => c_warehouse (candidate r)) options_df) in
  let columns := axis_labels (map (fun r => c_vehicle (candidate r)) options_df) in
  map (fun w => (w, map (fun v => (v, pivot_cell options_df w v)) columns)) index.

End Display.
Import Display.

(** ** Sample tables *)

Module Sample.

Local Open Scope string_scope.

Definition warehouses : list Warehouse.row :=
  [ {| Warehouse.location := "Mumbai"; Warehouse.product_category := "Electronics";
       Warehouse.current_stock_units := 120; Warehouse.reorder_level := 40 |};
    {| Warehouse.location := "Delhi"; Warehouse.product_category := "Electronics";
       Warehouse.current_stock_units := 100; Warehouse.reorder_level := 10 |};
    {| Warehouse.location := "Pune"; Warehouse.product_category := "Toys";
       Warehouse.current_stock_units := 50; Warehouse.reorder_level := 60 |} ].

Definition van : Fleet.row :=
  {| Fleet.vehicle_type := "Van"; Fleet.fuel_efficiency_km_per_l := 12;
     Fleet.co2_emissions_kg_per_km := 3 # 10 |}.

Definition truck : Fleet.row :=
  {| Fleet.vehicle_type := "Truck"; Fleet.fuel_efficiency_km_per_l := 6;
     Fleet.co2_emissions_kg_per_km := 3 # 10 |}.

Definition bike : Fleet.row :=
  {| Fleet.vehicle_type := "Bike"; Fleet.fuel_efficiency_km_per_l := 40;
     Fleet.co2_emissions_kg_per_km := 1 # 10 |}.

Definition vehicles : list Fleet.row := [van; truck; bike].

Definition raw_routes : list RawRoutes.row :=
  [ {| RawRoutes.order_id := "O1"; RawRoutes.route := Some "Mumbai-Chennai";
       RawRoutes.distance_km := Some 1300; RawRoutes.traffic_delay_minutes := Some 30;
       RawRoutes.weather_impact := Some "Severe" |};
    {| RawRoutes.order_id := "O2"; RawRoutes.route := None;
       RawRoutes.distance_km := Some 100; RawRoutes.traffic_delay_minutes := None;
       RawRoutes.weather_impact := None |};
    {| RawRoutes.order_id := "O3"; RawRoutes.route := Some "Delhi-CHENNAI";
       RawRoutes.distance_km := Some 2200; RawRoutes.traffic_delay_minutes := Some 45;
       RawRoutes.weather_impact := Some "low" |};
    {| RawRoutes.order_id := "O4"; RawRoutes.route := Some "Chicago-St, Louis";
       RawRoutes.distance_km := Some 480; RawRoutes.traffic_delay_minutes := Some 20;
       RawRoutes.weather_impact := Some "unknown" |} ].

Definition deliveries : list Delivery.row :=
  [ {| Delivery.order_id := "O1"; Delivery.delivery_status := Some "On-Time";
       Delivery.promised_delivery_days := Some 3;
       Delivery.actual_delivery_days := Some 3;
       Delivery.delivery_cost_inr := Some 250 |} ].

Definition cost_rows : list Costs.row :=
  [ {| Costs.order_id := "O1";
       Costs.cells := [("fuel_cost_inr", Some 100); ("labor_cost_inr", None);
                       ("weight_kg", Some 5); ("toll_charges_inr", Some 20)] |};
    {| Costs.order_id := "O3";
       Costs.cells := [("fuel_cost_inr", Some 300); ("labor_cost_inr", Some 50);
                       ("weight_kg", Some 7); ("toll_charges_inr", None)] |} ].

(** the second row of the merged table: its order has no delivery and no
    cost record *)
Definition unmatched_route : Merged.row :=
  {| Merged.order_id := "O2"; Merged.route := None;
     Merged.distance_km := Some 100; Merged.traffic_delay_minutes := 0;
     Merged.weather_impact := 0; Merged.delivery_status := None;
     Merged.promised_delivery_days := None; Merged.actual_delivery_days := None;
     Merged.delivery_cost_inr := None; Merged.total_cost := None |}.

Definition tables : Tables :=
  {| warehouse := warehouses;
     fleet := vehicles;
     routes := enrich raw_routes deliveries cost_rows |}.

(** a fleet of two vehicles with one emission rate: the candidates of a
    warehouse with either vehicle have one score *)
Definition tied_tables : Tables :=
  {| warehouse := warehouses;
     fleet := [van; truck];
     routes := enrich raw_routes deliveries cost_rows |}.

(** two rows of a scored table with one score *)
Definition blank (w v : string) : Candidate :=
  {| c_warehouse := w; c_vehicle := v; distance_km := 0; traffic_delay_minutes := 0;
     weather_impact := 0; fuel_efficiency := 0; co2 := 0; cost := 0;
     inventory_health := 0 |}.

Definition tied_row (w v : string) : Scored :=
  {| candidate := blank w v; cost_n := 0; delay_risk := 0; distance_n := 0;
     co2_n := 0; inventory_n := 1; fulfillment_score := 1 # 10 |}.

Definition tied_table : list Scored :=
  [tied_row "Mumbai" "Van"; tied_row "Mumbai" "Truck"].

End Sample.

(** ** Properties *)

Local Open Scope string_scope.

(** *** Normalisation and the score *)

(** C2: every entry of [normalize] of a non-empty column lies in [0, 1], the
    result has an entry for every cell, and a non-empty column all of whose
    cells are equal normalises to zeros. *)
Theorem normalize_unit_interval (col : list Q) :
  col <> [] ->
  List.length (normalize col) = List.length col /\
  (forall y, In y (normalize col) -> 0 <= y <= 1) /\
  (forall c, (forall x, In x col -> x == c) ->
             forall y, In y (normalize col) -> y == 0).
Proof.
  intros _. split; [apply normalize_length|]. split.
  - intros y Hy. destruct (normalize_range col y Hy) as [H0 H1].
    split; [exact H0 | now apply Qlt_le_weak].
  - intros c Hall y Hy. now apply (normalize_const col c).
Qed.

Lemma normalize_unit_interval_witness :
  [3; 1; 2] <> [] /\
  (forall y, In y (normalize [3; 1; 2]) -> 0 <= y <= 1) /\
  (forall y, In y (normalize [7; 7]) -> y == 0).
Proof.
  split; [discriminate|]. split.
  - apply (normalize_unit_interval [3; 1; 2]). discriminate.
  - apply (proj2 (proj2 (normalize_unit_interval [7; 7] ltac:(discriminate))) 7).
    intros x [<-|[<-|[]]]; reflexivity.
Defined.

(** C3: the five weights sum to 1, and the score of features that lie in
    [0, 1] lies in [0, 1]. *)
Theorem score_convex (cost_n delay_risk distance_n co2_n inventory_n : Q) :
  0 <= cost_n <= 1 -> 0 <= delay_risk <= 1 -> 0 <= distance_n <= 1 ->
  0 <= co2_n <= 1 -> 0 <= inventory_n <= 1 ->
  col_sum weights == 1 /\
  0 <= score cost_n delay_risk distance_n co2_n inventory_n <= 1.
Proof.
  intros H1 H2 H3 H4 H5. split; [reflexivity|].
  unfold score, w_cost, w_delay, w_distance, w_co2, w_inventory. lra.
Qed.

Lemma score_convex_witness :
  col_sum weights == 1 /\ 0 <= score 1 0 (1 # 2) 1 (1 # 4) <= 1.
Proof.
  apply score_convex; split; vm_compute; discriminate.
Defined.

(** in the scored table every normalised feature, and so every score, lies
    in [0, 1] *)
Lemma scored_columns_range opts r :
  In r (scored_columns opts) ->
  0 <= cost_n r <= 1 /\ 0 <= delay_risk r <= 1 /\ 0 <= distance_n r <= 1 /\
  0 <= co2_n r <= 1 /\ 0 <= inventory_n r <= 1 /\ 0 <= fulfillment_score r <= 1.
Proof.
  intro Hr. apply scored_columns_in in Hr. destruct Hr as (o & Ho & ->).
  pose proof (stat_range cost opts o Ho) as H1.
  pose proof (stat_range delay opts o Ho) as H2.
  pose proof (stat_range distance_km opts o Ho) as H3.
  pose proof (stat_range co2 opts o Ho) as H4.
  pose proof (stat_range inventory_health opts o Ho) as H5.
  unfold score_row.
  cbn [cost_n delay_risk distance_n co2_n inventory_n fulfillment_score].
  unfold score, w_cost, w_delay, w_distance, w_co2, w_inventory.
  repeat split; lra.
Qed.

(** *** The candidate generator *)

Lemma is_empty_false {A : Type} (l : list A) : l <> [] -> is_empty l = false.
Proof. destruct l; [congruence | reflexivity]. Qed.

Lemma options_length available fleet rd :
  List.length (options available fleet rd)
  = (List.length available * List.length fleet)%nat.
Proof.
  unfold options. induction available as [|wh rest IH]; simpl.
  - reflexivity.
  - now rewrite length_app, length_map, IH.
Qed.

Lemma options_pairs available fleet rd :
  map (fun o => (c_warehouse o, c_vehicle o)) (options available fleet rd)
  = map (fun p => (Warehouse.location (fst p), Fleet.vehicle_type (snd p)))
        (list_prod available fleet).
Proof.
  unfold options. induction available as [|wh rest IH]; simpl.
  - reflexivity.
  - rewrite !map_app, IH, !map_map. reflexivity.
Qed.

(** the rows the filter keeps, whatever the pattern *)
Lemma route_data_spec routes found r :
  In r (route_data routes found) <->
  In r routes /\ exists s, Routes.route r = Str s /\ found s = true.
Proof.
  unfold route_data. rewrite filter_In. split.
  - intros [Hin Hs]. split; [exact Hin|].
    destruct (Routes.route r) as [s|q] eqn:E; simpl in Hs; [now exists s | discriminate].
  - intros [Hin (s & E & Hs)]. split; [exact Hin|]. now rewrite E.
Qed.

(** two searches that agree on every text keep the same rows *)
Lemma route_data_ext routes (found found' : string -> bool) :
  (forall s, found s = found' s) -> route_data routes found = route_data routes found'.
Proof.
  intro H. unfold route_data. apply filter_ext. intro r.
  destruct (Routes.route r); simpl; [apply H | reflexivity].
Qed.

(** a table with a matching route has a label that is text *)
Lemma route_data_accessor routes found :
  route_data routes found <> [] -> str_accessor (map Routes.route routes) = true.
Proof.
  intro Hne. destruct (route_data routes found) as [|r rs] eqn:E; [congruence|].
  assert (Hr : In r (route_data routes found)) by (rewrite E; now left).
  apply route_data_spec in Hr. destruct Hr as [Hin (s & Es & _)].
  unfold str_accessor. apply orb_true_iff. right.
  apply existsb_exists. exists (Routes.route r).
  split; [now apply in_map | now rewrite Es].
Qed.

(** on a pattern of the fragment every engine keeps the rows that [search]
    keeps *)
Lemma fragment_route_data (P : PatternEngine) (destination : string)
    (atoms : list atom) :
  compile destination = Some atoms ->
  exists found,
    re_search destination = Some found /\
    forall routes, route_data routes found = route_data routes (search atoms).
Proof.
  intro Hc. destruct (re_search_fragment destination atoms Hc) as (found & Hre & Hext).
  exists found. split; [exact Hre|]. intro routes. now apply route_data_ext.
Qed.

(** the candidates of a request that passes the two checks *)
Lemma generate_ok (P : PatternEngine) (t : Tables) (product : string)
    (priority : Priority) (destination : string) (found : string -> bool) :
  available_wh (warehouse t) product <> [] ->
  re_search destination = Some found ->
  route_data (routes t) found <> [] ->
  generate t product priority destination
  = Ok (options (available_wh (warehouse t) product) (fleet t)
                (route_data (routes t) found)).
Proof.
  intros Hwh Hc Hrd. unfold generate.
  rewrite (is_empty_false _ Hwh), (route_data_accessor _ _ Hrd), Hc.
  cbv zeta. rewrite (is_empty_false _ Hrd). reflexivity.
Qed.

(** C4: a request that passes the inventory check and the route check
    generates one candidate for every pair of an eligible warehouse and a
    vehicle of the fleet, in the order of the cross product: their number is
    the product of the two numbers. *)
Theorem candidate_count (P : PatternEngine) (t : Tables) (product : string)
    (priority : Priority) (destination : string) (found : string -> bool) :
  available_wh (warehouse t) product <> [] ->
  re_search destination = Some found ->
  route_data (routes t) found <> [] ->
  exists opts,
    generate t product priority destination = Ok opts /\
    List.length opts
    = (List.length (available_wh (warehouse t) product) * List.length (fleet t))%nat /\
    map (fun o => (c_warehouse o, c_vehicle o)) opts
    = map (fun p => (Warehouse.location (fst p), Fleet.vehicle_type (snd p)))
          (list_prod (available_wh (warehouse t) product) (fleet t)).
Proof.
  intros Hwh Hc Hrd. rewrite (generate_ok P t product priority destination found Hwh Hc Hrd).
  eexists. split; [reflexivity|]. split; [apply options_length | apply options_pairs].
Qed.

Lemma candidate_count_witness :
  exists opts,
    generate (E := fragment_engine) Sample.tables "Electronics" Express "chennai"
    = Ok opts /\
    List.length opts = 6%nat.
Proof.
  destruct (candidate_count fragment_engine Sample.tables "Electronics" Express "chennai"
              (search [Lit "c"; Lit "h"; Lit "e"; Lit "n"; Lit "n"; Lit "a"; Lit "i"]%char))
    as (opts & Hg & Hl & _).
  - vm_compute. discriminate.
  - reflexivity.
  - vm_compute. discriminate.
  - exists opts. split; [exact Hg | exact Hl].
Defined.

(** C5: the eligible warehouses are the rows of the requested product whose
    stock is above the reorder level; when there is none the request stops
    with the no-inventory condition, before any candidate is generated. *)
Theorem eligible_warehouses (P : PatternEngine) (K : SortKind) (t : Tables)
    (product : string) (priority : Priority) (destination : string) :
  (forall w,
     In w (available_wh (warehouse t) product) <->
     In w (warehouse t) /\ Warehouse.product_category w = product /\
     Warehouse.reorder_level w < Warehouse.current_stock_units w) /\
  (available_wh (warehouse t) product = [] ->
     generate t product priority destination = Stop NoInventory /\
     submit t product priority destination = Stop NoInventory).
Proof.
  split.
  - intro w. unfold available_wh, eligible.
    rewrite filter_In, andb_true_iff, String.eqb_eq, Qltb_lt. tauto.
  - intro He. unfold submit, generate. rewrite He. simpl. split; reflexivity.
Qed.

Lemma eligible_warehouses_witness :
  available_wh (warehouse Sample.tables) "Toys" = [] /\
  submit (E := fragment_engine) (K := stable_kind) Sample.tables "Toys" Express "chennai"
  = Stop NoInventory.
Proof.
  split; [reflexivity|].
  apply (proj2 (eligible_warehouses fragment_engine stable_kind Sample.tables "Toys"
                  Express "chennai")).
  reflexivity.
Defined.

(** *** The route filter *)

(** For a destination without special characters the matching routes are
    the rows whose label is text that contains the destination, up to case;
    when there is none (some warehouse being eligible, and the label
    column being one that [.str] accepts) the request stops with the
    no-route condition. *)
Lemma route_data_plain (P : PatternEngine) (K : SortKind) (t : Tables)
    (product : string) (priority : Priority) (destination : string) :
  plain destination ->
  exists atoms found,
    compile destination = Some atoms /\
    re_search destination = Some found /\
    (forall r,
       In r (route_data (routes t) found) <->
       In r (routes t) /\
       exists s, Routes.route r = Str s /\ ci_substring destination s) /\
    (available_wh (warehouse t) product <> [] ->
     str_accessor (map Routes.route (routes t)) = true ->
     route_data (routes t) found = [] ->
     generate t product priority destination = Stop NoRoute /\
     submit t product priority destination = Stop NoRoute).
Proof.
  intro Hp. pose proof (compile_plain _ Hp) as Hc.
  destruct (fragment_route_data P _ _ Hc) as (found & Hre & Hrd).
  exists (map Lit (list_ascii_of_string destination)), found.
  split; [exact Hc|]. split; [exact Hre|]. split.
  - intro r. rewrite Hrd, route_data_spec.
    split; intros [Hin (s & Es & Hs)]; (split; [exact Hin|]); exists s;
      (split; [exact Es|]); now apply search_lits.
  - intros Hwh Hacc Hnone. unfold submit, generate.
    rewrite (is_empty_false _ Hwh), Hacc, Hre. cbv zeta.
    rewrite Hnone. simpl. split; reflexivity.
Qed.

(** C6, at the destination [St. Louis]: no label of the sample routes
    contains the destination, so the matching routes of the specification
    are none and the request should stop with the no-route condition.  The dot
    of the destination is read as the pattern that matches any character:
    the row labelled [Chicago-St, Louis] is kept as a matching route, and
    the request generates its six candidates from it. *)
Theorem route_filter_reads_pattern (P : PatternEngine) :
  (forall r s, In r (routes Sample.tables) -> Routes.route r = Str s ->
               ~ ci_substring "St. Louis" s) /\
  (exists atoms found,
     compile "St. Louis" = Some atoms /\
     re_search "St. Louis" = Some found /\
     exists r, In r (route_data (routes Sample.tables) found) /\
               Routes.route r = Str "Chicago-St, Louis") /\
  exists opts,
    generate Sample.tables "Electronics" Standard "St. Louis" = Ok opts /\
    List.length opts = 6%nat.
Proof.
  destruct (fragment_route_data P "St. Louis" _ eq_refl) as (found & Hre & Hrd).
  split; [|split].
  - intros r s Hr Es Hc. apply search_lits in Hc.
    cbv in Hr. repeat (destruct Hr as [<-|Hr]; [cbv in Es |]); try contradiction;
      try discriminate Es; injection Es as <-; vm_compute in Hc; discriminate Hc.
  - eexists. exists found. split; [reflexivity|]. split; [exact Hre|].
    rewrite Hrd. eexists. split; [cbv; left; reflexivity | reflexivity].
  - rewrite (generate_ok P Sample.tables "Electronics" Standard "St. Louis" found).
    + eexists. split; [reflexivity|]. rewrite options_length. reflexivity.
    + vm_compute. discriminate.
    + exact Hre.
    + rewrite Hrd. vm_compute. discriminate.
Qed.

(** *** The priority *)

(** C9: two requests that differ in the priority only give the same
    candidates, the same scored table and the same best option. *)
Theorem priority_no_effect (P : PatternEngine) (K : SortKind) (t : Tables)
    (product : string) (p1 p2 : Priority) (destination : string) :
  generate t product p1 destination = generate t product p2 destination /\
  submit t product p1 destination = submit t product p2 destination.
Proof. split; reflexivity. Qed.

(** *** The enrichment stage *)

(** no column other than [order_id] is left out by the second test of the
    comprehension: [order_id] does not end in [_inr] *)
Lemma is_cost_column_suffix col : is_cost_column col = endswith col "_inr".
Proof.
  unfold is_cost_column. destruct (String.eqb col "order_id") eqn:E.
  - apply String.eqb_eq in E. subst col. reflexivity.
  - apply andb_true_r.
Qed.

Lemma cost_columns_cells (c : Costs.row) :
  cost_columns (columns c)
  = map fst (filter (fun x => is_cost_column (fst x)) (Costs.cells c)).
Proof.
  unfold cost_columns, columns. cbn [filter]. cbv beta.
  replace (is_cost_column "order_id") with false by reflexivity.
  induction (Costs.cells c) as [|x xs IH]; simpl; [reflexivity|].
  destruct (is_cost_column (fst x)); simpl; now rewrite IH.
Qed.

Lemma left_join_in {L R M : Type} (key_l : L -> string) (key_r : R -> string)
    (glue : L -> option R -> M) (left : list L) (right : list R) (m : M) :
  In m (left_join key_l key_r glue left right) <->
  exists l, In l left /\
    ((exists r, In r right /\ key_r r = key_l l /\ m = glue l (Some r)) \/
     ((forall r, In r right -> key_r r <> key_l l) /\ m = glue l None)).
Proof.
  unfold left_join. rewrite in_flat_map.
  split; intros (l & Hl & H); exists l; (split; [exact Hl|]).
  - destruct (filter _ right) as [|r0 rs] eqn:E.
    + destruct H as [<-|[]]. right. split; [|reflexivity].
      intros r Hr Hk.
      assert (Hin : In r (filter (fun r => String.eqb (key_r r) (key_l l)) right))
        by (apply filter_In; split; [exact Hr | now apply String.eqb_eq]).
      rewrite E in Hin. contradiction.
    + left. apply in_map_iff in H. destruct H as (r & <- & Hr).
      rewrite <- E in Hr. apply filter_In in Hr. destruct Hr as [Hr Hk].
      exists r. split; [exact Hr|]. split; [now apply String.eqb_eq | reflexivity].
  - destruct H as [(r & Hr & Hk & ->) | [Hnone ->]].
    + assert (Hin : In r (filter (fun r => String.eqb (key_r r) (key_l l)) right))
        by (apply filter_In; split; [exact Hr | now apply String.eqb_eq]).
      destruct (filter _ right) as [|r0 rs]; [contradiction|].
      apply in_map_iff. now exists r.
    + destruct (filter _ right) as [|r0 rs] eqn:E; [now left|].
      assert (Hin : In r0 (filter (fun r => String.eqb (key_r r) (key_l l)) right))
        by (rewrite E; now left).
      apply filter_In in Hin. destruct Hin as [Hr Hk].
      apply String.eqb_eq in Hk. now destruct (Hnone r0 Hr).
Qed.

Lemma median_none col : median col = None <-> present col = [].
Proof.
  unfold median. split.
  - intro H.
    destruct (List.length (stable_sort (fun q => q) (present col))) as [|n] eqn:E.
    + apply length_zero_iff_nil in E.
      pose proof (insertion_sort_permutation
                    (fun x y => Qle_bool x y) (present col)) as Hp.
      unfold stable_sort in E. rewrite E in Hp.
      now apply Permutation_sym, Permutation_nil in Hp.
    + destruct (Nat.even (S n)); discriminate H.
  - intros ->. reflexivity.
Qed.

(** The spec's words: a missing cell is filled with 0, another cell is
    kept. *)
Definition filled_number (before : option Q) (after : Q) : Prop :=
  match before with
  | Some q => after = q
  | None => after = 0
  end.

Definition filled_text (before : option string) (after : obj) : Prop :=
  match before with
  | Some s => after = Str s
  | None => after = Num 0
  end.

(** the cells of one name, when no other column bears it *)
Lemma filter_own_name (cells : list (string * option Q)) (x : string * option Q) :
  NoDup (map fst cells) -> In x cells ->
  filter (fun c => String.eqb (fst c) (fst x)) cells = [x].
Proof.
  induction cells as [|y ys IH]; simpl; [contradiction|].
  intro Hnd. inversion Hnd as [|? ? Hnot Hnd']; subst.
  assert (Hnone : forall z, In z ys -> fst z <> fst y)
    by (intros z Hz E; apply Hnot; rewrite <- E; now apply in_map).
  intros [->|Hx].
  - rewrite String.eqb_refl. f_equal.
    destruct (filter (fun c => String.eqb (fst c) (fst x)) ys) as [|z zs] eqn:Ef;
      [reflexivity|].
    assert (Hz : In z (filter (fun c => String.eqb (fst c) (fst x)) ys))
      by (rewrite Ef; now left).
    apply filter_In in Hz. destruct Hz as [Hz Ez]. apply String.eqb_eq in Ez.
    now destruct (Hnone z Hz).
  - destruct (String.eqb_spec (fst y) (fst x)) as [Ey|_]; [|now apply IH].
    symmetry in Ey. now destruct (Hnone x Hx).
Qed.

(** When the columns of the cost table have distinct names, the selection
    [costs[cost_columns]] holds every cell of a column that ends in [_inr]
    once, in the order of the columns. *)
Lemma selected_cells_distinct (c : Costs.row) :
  NoDup (map fst (Costs.cells c)) ->
  selected_cells c
  = map snd (filter (fun x => endswith (fst x) "_inr") (Costs.cells c)).
Proof.
  intro Hnd. unfold selected_cells. rewrite cost_columns_cells.
  rewrite (filter_ext (fun x : string * option Q => is_cost_column (fst x))
             (fun x => endswith (fst x) "_inr"))
    by (intro x; apply is_cost_column_suffix).
  assert (G : forall sub : list (string * option Q),
            (forall x, In x sub -> In x (Costs.cells c)) ->
            flat_map (fun col => map snd (filter (fun y => String.eqb (fst y) col)
                                                 (Costs.cells c)))
                     (map fst sub)
            = map snd sub).
  { induction sub as [|x xs IH]; intro Hsub; simpl; [reflexivity|].
    rewrite (filter_own_name _ x Hnd (Hsub x (or_introl eq_refl))). simpl.
    f_equal. apply IH. intros z Hz. apply Hsub. now right. }
  apply G. intros x Hx. apply filter_In in Hx. tauto.
Qed.

(** C7, at a cost table in which two columns have one name once the names
    are cleaned (a fuel cost of 100 and of 7, and a toll of 20): the sum of
    the cells of the columns that end in [_inr] is 127.  The name is listed
    twice in [cost_columns], each listing selects both columns, and the
    total cost counts both cells twice: it is 234. *)
Theorem total_cost_counts_shared_name_twice :
  let names := clean_columns ["Fuel Cost INR"; "fuel_cost_inr"; "Toll INR"] in
  let record :=
    {| Costs.order_id := "O1";
       Costs.cells := combine names [Some 100; Some 7; Some 20] |} in
  cost_columns (columns record) = ["fuel_cost_inr"; "fuel_cost_inr"; "toll_inr"] /\
  selected_cells record = [Some 100; Some 7; Some 100; Some 7; Some 20] /\
  total_cost record = 234 /\
  col_sum (map (fun x => or_zero (snd x))
               (filter (fun x => endswith (fst x) "_inr") (Costs.cells record)))
  = 127.
Proof. cbv zeta. repeat split; reflexivity. Qed.

(** C8: a weather label that reads low, medium, high or severe, whatever
    the case of its letters, becomes 1, 2, 3 or 4; any other label, and a
    missing one, becomes 0. *)
Theorem weather_ordinals (label : string) :
  (lower label = "low" -> weather_ordinal (Some label) = 1) /\
  (lower label = "medium" -> weather_ordinal (Some label) = 2) /\
  (lower label = "high" -> weather_ordinal (Some label) = 3) /\
  (lower label = "severe" -> weather_ordinal (Some label) = 4) /\
  (lower label <> "low" -> lower label <> "medium" -> lower label <> "high" ->
   lower label <> "severe" -> weather_ordinal (Some label) = 0) /\
  weather_ordinal None = 0.
Proof.
  unfold weather_ordinal, astype_str, weather_mapping.
  repeat split; try (intros ->; reflexivity).
  intros H1 H2 H3 H4.
  repeat match goal with
         | |- context [String.eqb ?a ?b] =>
             destruct (String.eqb_spec a b); [contradiction|]
         end.
  reflexivity.
Qed.

Lemma weather_ordinals_witness :
  weather_ordinal (Some "Severe") = 4 /\ weather_ordinal (Some "unknown") = 0.
Proof.
  split.
  - apply (weather_ordinals "Severe"). reflexivity.
  - apply (weather_ordinals "unknown"); discriminate.
Defined.

(** *** The selection *)

Lemma best_option_minimum (K : SortKind) (options_df : list Scored) :
  options_df <> [] ->
  exists best,
    best_option options_df = Some best /\ In best options_df /\
    forall r, In r options_df -> fulfillment_score best <= fulfillment_score r.
Proof.
  intro Hne. unfold best_option.
  apply sorted_head_minimum;
    [apply sort_by_permutation | apply sort_by_ascending | exact Hne].
Qed.

(** C1, as the code has it: on a non-empty scored table the selection
    returns a row of the table whose score is the minimum of the score
    column; among several rows of that score it returns the first in the
    order of generation when the sort is stable, which the default kind of
    [sort_values] does not promise. *)
Theorem best_option_global_minimum (K : SortKind) (options_df : list Scored) :
  options_df <> [] ->
  exists best,
    best_option options_df = Some best /\ In best options_df /\
    fulfillment_score best == col_min (map fulfillment_score options_df) /\
    (forall r, In r options_df -> fulfillment_score best <= fulfillment_score r) /\
    (is_stable K -> first_minimum fulfillment_score options_df best).
Proof.
  intro Hne. destruct (best_option_minimum K options_df Hne) as (best & Hb & Hin & Hmin).
  exists best. repeat split; try assumption.
  - apply Qle_antisym.
    + assert (Hm : map fulfillment_score options_df <> [])
        by (destruct options_df; [congruence | discriminate]).
      destruct (col_min_in _ Hm) as (x & Hx & ->).
      apply in_map_iff in Hx. destruct Hx as (r & <- & Hr). now apply Hmin.
    + apply col_min_le. now apply in_map.
  - intro Hs. destruct (stable_sort_head fulfillment_score options_df Hne)
      as (r & Hr & Hfirst).
    unfold best_option in Hb. rewrite Hs, Hr in Hb. now injection Hb as <-.
Qed.

Lemma best_option_global_minimum_witness :
  exists best,
    best_option (K := stable_kind) Sample.tied_table = Some best /\
    first_minimum fulfillment_score Sample.tied_table best.
Proof.
  destruct (best_option_global_minimum stable_kind Sample.tied_table)
    as (best & Hb & _ & _ & _ & Hfirst).
  - discriminate.
  - exists best. split; [exact Hb|]. apply Hfirst. intros A key l. reflexivity.
Defined.

(** C1, as the specification has it, fails at a request in which two candidates
    share the minimum score (one warehouse, two vehicles of one emission
    rate): with an ascending sort that is not the stable one, the selection
    returns the second of them in the order of generation. *)
Lemma best_option_tie_not_first :
  exists options_df best,
    submit (E := fragment_engine) (K := unstable_kind) Sample.tied_tables
      "Electronics" Express "chennai"
    = Ok (options_df, best) /\
    options_df <> [] /\
    best_option (K := unstable_kind) options_df = Some best /\
    c_vehicle (candidate best) = "Truck" /\
    ~ first_minimum fulfillment_score options_df best.
Proof.
  eexists. eexists. split; [vm_compute; reflexivity|].
  split; [discriminate|]. split; [vm_compute; reflexivity|].
  split; [reflexivity|].
  intro Hfirst.
  match type of Hfirst with
  | first_minimum _ ?df _ =>
      destruct (stable_sort_head fulfillment_score df ltac:(discriminate))
        as (r & Hr & Hfirst')
  end.
  vm_compute in Hr. injection Hr as <-.
  pose proof (first_minimum_unique _ _ _ _ Hfirst Hfirst') as E.
  discriminate E.
Qed.

(** C10: in a request that reaches the scoring engine every candidate has
    [cost_n], [distance_n] and [delay_risk] equal to 0, its score is
    [0.10 * co2_n + 0.10 * inventory_n], which lies in [0, 0.2], and the
    best option is a candidate for which [co2_n + inventory_n] is least. *)
Theorem score_from_co2_and_inventory (P : PatternEngine) (K : SortKind) (t : Tables)
    (product : string) (priority : Priority) (destination : string) (options_df : list Scored)
    (best : Scored) :
  submit t product priority destination = Ok (options_df, best) ->
  (forall r, In r options_df ->
     cost_n r == 0 /\ distance_n r == 0 /\ delay_risk r == 0 /\
     fulfillment_score r == (10 # 100) * co2_n r + (10 # 100) * inventory_n r /\
     0 <= fulfillment_score r <= 2 # 10) /\
  In best options_df /\
  (forall r, In r options_df ->
     co2_n best + inventory_n best <= co2_n r + inventory_n r).
Proof.
  unfold submit. intro H.
  destruct (generate t product priority destination) as [opts|c] eqn:Hg;
    [|discriminate H].
  cbn [bind] in H. unfold scoring in H.
  destruct (is_empty opts) eqn:Ee; [discriminate H|].
  cbn [bind] in H.
  assert (Hne : scored_columns opts <> []).
  { intro E. apply (f_equal (@List.length _)) in E.
    rewrite scored_columns_length in E.
    destruct opts; [discriminate Ee | discriminate E]. }
  destruct (best_option_minimum K _ Hne) as (b & Hb & Hin & Hmin).
  rewrite Hb in H. injection H as <- <-.
  (* every candidate carries the same four means *)
  unfold generate in Hg.
  destruct (is_empty (available_wh (warehouse t) product)); [discriminate Hg|].
  destruct (negb (str_accessor (map Routes.route (routes t)))); [discriminate Hg|].
  destruct (re_search destination) as [found|]; [|discriminate Hg].
  cbv zeta in Hg.
  destruct (is_empty (route_data (routes t) found)); [discriminate Hg|].
  injection Hg as Hg.
  set (rd := route_data (routes t) found) in *.
  assert (Hsame : forall x, In x opts ->
            cost x = col_mean (map Routes.total_cost rd) /\
            distance_km x = col_mean (map Routes.distance_km rd) /\
            delay x = col_mean (map Routes.traffic_delay_minutes rd)
                      + col_mean (map Routes.weather_impact rd)).
  { intros x Hx. rewrite <- Hg in Hx. unfold options in Hx.
    apply in_flat_map in Hx. destruct Hx as (wh & _ & Hx).
    apply in_map_iff in Hx. destruct Hx as (v & <- & _). repeat split. }
  assert (Hrow : forall r, In r (scored_columns opts) ->
            cost_n r == 0 /\ distance_n r == 0 /\ delay_risk r == 0 /\
            fulfillment_score r == (10 # 100) * co2_n r + (10 # 100) * inventory_n r /\
            0 <= co2_n r < 1 /\ 0 < inventory_n r <= 1).
  { intros r Hr. apply scored_columns_in in Hr. destruct Hr as (x & Hx & ->).
    assert (Hc : stat (map cost opts) (cost x) == 0).
    { apply (stat_const cost opts (col_mean (map Routes.total_cost rd))); [|exact Hx].
      intros y Hy. now rewrite (proj1 (Hsame y Hy)). }
    assert (Hd : stat (map distance_km opts) (distance_km x) == 0).
    { apply (stat_const distance_km opts (col_mean (map Routes.distance_km rd)));
        [|exact Hx].
      intros y Hy. now rewrite (proj1 (proj2 (Hsame y Hy))). }
    assert (Hdl : stat (map delay opts) (delay x) == 0).
    { apply (stat_const delay opts
               (col_mean (map Routes.traffic_delay_minutes rd)
                + col_mean (map Routes.weather_impact rd))); [|exact Hx].
      intros y Hy. now rewrite (proj2 (proj2 (Hsame y Hy))). }
    pose proof (stat_range co2 opts x Hx) as Hco.
    pose proof (stat_range inventory_health opts x Hx) as Hinv.
    unfold score_row. cbn [cost_n distance_n delay_risk co2_n inventory_n fulfillment_score].
    repeat split; try assumption; try lra.
    unfold score, w_cost, w_delay, w_distance, w_co2, w_inventory.
    rewrite Hc, Hd, Hdl. lra. }
  split; [|split].
  - intros r Hr. destruct (Hrow r Hr) as (H1 & H2 & H3 & H4 & H5 & H6).
    repeat split; try assumption; rewrite H4; lra.
  - exact Hin.
  - intros r Hr. specialize (Hmin r Hr).
    destruct (Hrow r Hr) as (_ & _ & _ & Hr4 & _).
    destruct (Hrow b Hin) as (_ & _ & _ & Hb4 & _).
    rewrite Hr4, Hb4 in Hmin. lra.
Qed.

Lemma score_from_co2_and_inventory_witness :
  exists options_df best,
    submit (E := fragment_engine) (K := stable_kind) Sample.tables "Electronics"
      Express "chennai"
    = Ok (options_df, best) /\
    c_warehouse (candidate best) = "Delhi" /\ c_vehicle (candidate best) = "Bike" /\
    forall r, In r options_df ->
      co2_n best + inventory_n best <= co2_n r + inventory_n r.
Proof.
  destruct (submit (E := fragment_engine) (K := stable_kind) Sample.tables
              "Electronics" Express "chennai")
    as [[options_df best]|c] eqn:E; [|vm_compute in E; discriminate E].
  exists options_df, best. split; [reflexivity|].
  split; [|split].
  - vm_compute in E. now injection E as <- <-.
  - vm_compute in E. now injection E as <- <-.
  - apply (score_from_co2_and_inventory fragment_engine stable_kind Sample.tables "Electronics"
             Express "chennai" options_df best E).
Defined.

(** ** Further properties of the program *)

(** *** Column names *)

Lemma replace_spaces_idempotent s : replace_spaces (replace_spaces s) = replace_spaces s.
Proof.
  induction s as [|c rest IH]; simpl; [reflexivity|]. rewrite IH. f_equal.
  each_char c.
Qed.

Lemma lower_replace_lower s :
  lower (replace_spaces (lower s)) = replace_spaces (lower s).
Proof.
  induction s as [|c rest IH]; simpl; [reflexivity|]. rewrite IH. f_equal.
  each_char c.
Qed.

Lemma clean_column_trimmed name : trimmed (clean_column name).
Proof.
  unfold clean_column. rewrite replace_spaces_smap, lower_smap.
  apply trimmed_smap; [exact underscore_not_space|].
  apply trimmed_smap; [exact lower_char_not_space | apply strip_trimmed].
Qed.

Lemma clean_column_chars name c :
  In c (list_ascii_of_string (clean_column name)) ->
  c <> " "%char /\ is_upper c = false.
Proof.
  unfold clean_column. generalize (strip name) as s.
  induction s as [|d rest IH]; simpl; [contradiction|].
  intros [<-|Hin]; [|now apply IH].
  split; [intro E; revert E|]; each_char d; discriminate.
Qed.

(** X1: cleaning the column names twice is cleaning them once, and a
    cleaned name has no white space at either end, no space and no capital
    letter. *)
Theorem clean_columns_idempotent (columns : list string) :
  clean_columns (clean_columns columns) = clean_columns columns /\
  List.length (clean_columns columns) = List.length columns /\
  forall name, In name (clean_columns columns) ->
    strip name = name /\
    forall c, In c (list_ascii_of_string name) -> c <> " "%char /\ is_upper c = false.
Proof.
  assert (Hfix : forall name, strip (clean_column name) = clean_column name).
  { intro name. destruct (clean_column_trimmed name) as [Hl Hr].
    unfold strip. now rewrite Hl, Hr. }
  split; [|split].
  - unfold clean_columns. rewrite map_map. apply map_ext. intro name.
    unfold clean_column at 1. rewrite Hfix. unfold clean_column.
    now rewrite lower_replace_lower, replace_spaces_idempotent.
  - apply length_map.
  - intros name Hin. unfold clean_columns in Hin. apply in_map_iff in Hin.
    destruct Hin as (raw & <- & _). split; [apply Hfix | apply clean_column_chars].
Qed.

Lemma clean_columns_idempotent_witness :
  clean_columns (clean_columns [" Order ID "; "Route"]) = ["order_id"; "route"] /\
  strip "order_id" = "order_id".
Proof.
  split.
  - rewrite (proj1 (clean_columns_idempotent [" Order ID "; "Route"])). reflexivity.
  - exact (proj1 (proj2 (proj2 (clean_columns_idempotent [" Order ID "; "Route"]))
                         "order_id" (or_introl eq_refl))).
Defined.

(** *** The choices of the side bar *)

(** X2: the select boxes offer every value of the column once, in the
    order in which the values first appear in the orders table. *)
Theorem unique_first_appearance (l : list string) :
  NoDup (unique l) /\
  (forall x, In x (unique l) <-> In x l) /\
  (forall x, unique (l ++ [x])%list
             = if mem x l then unique l else (unique l ++ [x])%list).
Proof.
  unfold unique. split; [apply unique_from_NoDup|]. split.
  - intro x. rewrite unique_from_In. simpl. tauto.
  - intro x. rewrite unique_from_snoc. cbn [mem existsb orb].
    destruct (mem x l); [apply app_nil_r | reflexivity].
Qed.

Lemma unique_first_appearance_witness :
  unique ["Delhi"; "Pune"; "Delhi"] = ["Delhi"; "Pune"] /\ In "Pune" (unique ["Delhi"; "Pune"]).
Proof.
  split.
  - exact (proj2 (proj2 (unique_first_appearance ["Delhi"; "Pune"])) "Delhi").
  - apply (proj1 (proj2 (unique_first_appearance ["Delhi"; "Pune"]))). right. now left.
Defined.

(** *** The two merges *)

(** the rows one left row gives in a join *)
Definition matches {L R : Type} (key_l : L -> string) (key_r : R -> string)
    (right : list R) (l : L) : nat :=
  Nat.max 1 (List.length (filter (fun r => String.eqb (key_r r) (key_l l)) right)).

Lemma left_join_length {L R M : Type} (key_l : L -> string) (key_r : R -> string)
    (glue : L -> option R -> M) (left : list L) (right : list R) :
  List.length (left_join key_l key_r glue left right)
  = list_sum (map (matches key_l key_r right) left).
Proof.
  unfold left_join, matches. rewrite length_flat_map. f_equal.
  apply map_ext. intro l.
  destruct (filter _ right) as [|r rs]; [reflexivity|].
  rewrite length_map. cbn [List.length]. lia.
Qed.

Lemma list_sum_at_least {A : Type} (f : A -> nat) (l : list A) :
  (forall x, 1 <= f x)%nat ->
  (List.length l <= list_sum (map f l))%nat /\
  (forall x, In x l -> (2 <= f x)%nat -> (List.length l < list_sum (map f l))%nat).
Proof.
  intro H1. induction l as [|y ys [IH1 IH2]]; simpl.
  - split; [lia | contradiction].
  - split.
    + specialize (H1 y). lia.
    + intros x [->|Hx] H2.
      * lia.
      * specialize (IH2 x Hx H2). specialize (H1 y). lia.
Qed.

Lemma matches_positive {L R : Type} (key_l : L -> string) (key_r : R -> string)
    (right : list R) (l : L) : (1 <= matches key_l key_r right l)%nat.
Proof. unfold matches. lia. Qed.

Lemma left_join_keys {L R M : Type} (key_l : L -> string) (key_r : R -> string)
    (key_m : M -> string) (glue : L -> option R -> M) (left : list L) (right : list R) :
  (forall l r, key_m (glue l r) = key_l l) ->
  forall id, In id (map key_m (left_join key_l key_r glue left right)) <->
             In id (map key_l left).
Proof.
  intros Hk id. rewrite !in_map_iff. split.
  - intros (m & <- & Hm). apply left_join_in in Hm.
    destruct Hm as (l & Hl & [(r & _ & _ & ->) | [_ ->]]); exists l; now rewrite Hk.
  - intros (l & <- & Hl).
    destruct (filter (fun r => String.eqb (key_r r) (key_l l)) right) as [|r rs] eqn:E.
    + exists (glue l None). split; [apply Hk|]. apply left_join_in. exists l.
      split; [exact Hl|]. right. split; [|reflexivity].
      intros r Hr Hkr.
      assert (Hin : In r (filter (fun r => String.eqb (key_r r) (key_l l)) right))
        by (apply filter_In; split; [exact Hr | now apply String.eqb_eq]).
      rewrite E in Hin. contradiction.
    + exists (glue l (Some r)). split; [apply Hk|]. apply left_join_in. exists l.
      split; [exact Hl|]. left. exists r.
      assert (Hin : In r (filter (fun r => String.eqb (key_r r) (key_l l)) right))
        by (rewrite E; now left).
      apply filter_In in Hin. destruct Hin as [Hr Hkr].
      split; [exact Hr|]. split; [now apply String.eqb_eq | reflexivity].
Qed.

(** with one right row per key at most, a join gives one row per left row *)
Lemma filter_unique_key {R : Type} (key_r : R -> string) (right : list R) (k : string) :
  NoDup (map key_r right) ->
  filter (fun r => String.eqb (key_r r) k) right
  = match find (fun r => String.eqb (key_r r) k) right with
    | Some r => [r]
    | None => []
    end.
Proof.
  induction right as [|r rs IH]; simpl; [reflexivity|].
  intro Hnd. inversion Hnd as [|? ? Hnot Hnd']; subst.
  destruct (String.eqb_spec (key_r r) k) as [E|Hne]; [|now apply IH].
  f_equal. rewrite <- E.
  destruct (filter (fun r0 => String.eqb (key_r r0) (key_r r)) rs) as [|r' rs'] eqn:Ef;
    [reflexivity|].
  assert (Hin : In r' (filter (fun r0 => String.eqb (key_r r0) (key_r r)) rs))
    by (rewrite Ef; now left).
  apply filter_In in Hin. destruct Hin as [Hin Hk]. apply String.eqb_eq in Hk.
  exfalso. apply Hnot. rewrite <- Hk. now apply in_map.
Qed.

Lemma left_join_unique {L R M : Type} (key_l : L -> string) (key_r : R -> string)
    (glue : L -> option R -> M) (left : list L) (right : list R) :
  NoDup (map key_r right) ->
  left_join key_l key_r glue left right
  = map (fun l => glue l (find (fun r => String.eqb (key_r r) (key_l l)) right)) left.
Proof.
  intro Hnd. unfold left_join.
  rewrite (flat_map_ext _
             (fun l => [glue l (find (fun r => String.eqb (key_r r) (key_l l)) right)])).
  - induction left as [|l ls IH]; simpl; [reflexivity | now rewrite IH].
  - intro l. rewrite (filter_unique_key key_r right (key_l l) Hnd).
    now destruct (find _ right).
Qed.

(** X3: the merges never drop a route and never add an order: the merged
    table has a row for every route and no row of another order; a route
    whose order has two delivery records, or more, makes the table longer
    than the routes table. *)
Theorem merge_keeps_routes (routes : list RawRoutes.row)
    (delivery : list Delivery.row) (costs : list Costs.row) :
  (List.length routes <= List.length (enrich routes delivery costs))%nat /\
  (forall id, In id (map Routes.order_id (enrich routes delivery costs)) <->
              In id (map RawRoutes.order_id routes)) /\
  (forall r, In r routes ->
     (2 <= List.length (filter (fun d => String.eqb (Delivery.order_id d)
                                                     (RawRoutes.order_id r)) delivery))%nat ->
     (List.length routes < List.length (enrich routes delivery costs))%nat).
Proof.
  unfold enrich, fill_table, merge. rewrite length_map, map_map. cbn [fill Routes.order_id].
  set (first := left_join RawRoutes.order_id Delivery.order_id
                  (fun r d => with_delivery r d None) routes delivery).
  assert (H2 : (List.length first
                <= List.length (left_join Merged.order_id Costs.order_id
                                  with_total_cost first costs))%nat).
  { rewrite left_join_length. apply list_sum_at_least. apply matches_positive. }
  assert (H1 : List.length first
               = list_sum (map (matches RawRoutes.order_id Delivery.order_id delivery)
                               routes))
    by apply left_join_length.
  destruct (list_sum_at_least (matches RawRoutes.order_id Delivery.order_id delivery)
              routes (matches_positive _ _ _)) as [Hge Hgt].
  split; [lia|]. split.
  - intro id.
    rewrite (left_join_keys Merged.order_id Costs.order_id Merged.order_id
               with_total_cost first costs (fun l r => eq_refl)).
    apply (left_join_keys RawRoutes.order_id Delivery.order_id Merged.order_id
             (fun r d => with_delivery r d None) routes delivery (fun l r => eq_refl)).
  - intros r Hr Hd. specialize (Hgt r Hr). unfold matches at 1 in Hgt. lia.
Qed.

Lemma merge_keeps_routes_witness :
  (4 < List.length (enrich Sample.raw_routes (Sample.deliveries ++ Sample.deliveries)
                      Sample.cost_rows))%nat.
Proof.
  eapply (proj2 (proj2 (merge_keeps_routes Sample.raw_routes
                          (Sample.deliveries ++ Sample.deliveries) Sample.cost_rows))).
  - left. reflexivity.
  - vm_compute. lia.
Defined.

(** X4: when no order has two delivery records or two cost records, the
    merged table is the routes table row for row: the same orders in the
    same order, each with its label and its distance. *)
Theorem merge_unique_keys (routes : list RawRoutes.row)
    (delivery : list Delivery.row) (costs : list Costs.row) :
  NoDup (map Delivery.order_id delivery) ->
  NoDup (map Costs.order_id costs) ->
  let merged := merge routes delivery costs in
  List.length (enrich routes delivery costs) = List.length routes /\
  map Merged.order_id merged = map RawRoutes.order_id routes /\
  map Merged.route merged = map RawRoutes.route routes /\
  map Merged.distance_km merged = map RawRoutes.distance_km routes /\
  map Merged.total_cost merged
  = map (fun r => option_map total_cost
                    (find (fun c => String.eqb (Costs.order_id c) (RawRoutes.order_id r))
                          costs)) routes.
Proof.
  intros Hd Hc. cbv zeta. unfold enrich, fill_table, merge.
  rewrite (left_join_unique _ _ _ routes delivery Hd).
  rewrite (left_join_unique _ _ _ _ costs Hc).
  rewrite !length_map, !map_map. cbn.
  repeat split; reflexivity.
Qed.

Lemma merge_unique_keys_witness :
  map Merged.order_id (merge Sample.raw_routes Sample.deliveries Sample.cost_rows)
  = ["O1"; "O2"; "O3"; "O4"].
Proof.
  apply (merge_unique_keys Sample.raw_routes Sample.deliveries Sample.cost_rows).
  - repeat constructor; simpl; intuition discriminate.
  - repeat constructor; simpl; intuition discriminate.
Defined.

(** *** The median that fills the missing costs *)

Lemma present_In col q : In q (present col) <-> In (Some q) col.
Proof.
  unfold present. rewrite in_flat_map. split.
  - intros ([x|] & Hc & Hq); simpl in Hq; [|contradiction].
    destruct Hq as [<-|[]]. exact Hc.
  - intro H. exists (Some q). split; [exact H | now left].
Qed.

Lemma filter_length_permutation {A : Type} (f : A -> bool) (l l' : list A) :
  Permutation l l' -> List.length (filter f l) = List.length (filter f l').
Proof.
  induction 1 as [|x l l' _ IH|x y l|l l' l'' _ IH1 _ IH2]; simpl.
  - reflexivity.
  - destruct (f x); simpl; now rewrite IH.
  - destruct (f x), (f y); reflexivity.
  - now rewrite IH1.
Qed.

Lemma sorted_nth_le (s : list Q) :
  StronglySorted Qle s ->
  forall i j, (i <= j < List.length s)%nat -> nth i s 0 <= nth j s 0.
Proof.
  induction 1 as [|a l Hs IH Hall]; intros i j Hij; simpl in Hij; [lia|].
  destruct i as [|i], j as [|j]; simpl; try lia.
  - apply Qle_refl.
  - rewrite Forall_forall in Hall. apply Hall, nth_In. lia.
  - apply IH. lia.
Qed.

Lemma count_prefix (P : Q -> bool) (s : list Q) : forall k,
  (k < List.length s)%nat ->
  (forall i, (i <= k)%nat -> P (nth i s 0) = true) ->
  (k + 1 <= List.length (filter P s))%nat.
Proof.
  induction s as [|a l IH]; intros k Hk HP; simpl in Hk; [lia|].
  assert (Ha : P a = true) by (apply (HP 0%nat); lia).
  simpl. rewrite Ha. simpl.
  destruct k as [|k]; [lia|].
  specialize (IH k ltac:(lia) (fun i Hi => HP (S i) ltac:(lia))). lia.
Qed.

Lemma count_suffix (P : Q -> bool) (s : list Q) : forall k,
  (forall i, (k <= i < List.length s)%nat -> P (nth i s 0) = true) ->
  (List.length s - k <= List.length (filter P s))%nat.
Proof.
  induction s as [|a l IH]; intros k HP; simpl; [lia|].
  destruct k as [|k].
  - assert (Ha : P a = true) by (apply (HP 0%nat); simpl; lia).
    rewrite Ha. simpl.
    specialize (IH 0%nat (fun i Hi => HP (S i) ltac:(simpl; lia))). lia.
  - specialize (IH k (fun i Hi => HP (S i) ltac:(simpl; lia))).
    destruct (P a); simpl; lia.
Qed.

(** the value [median] returns splits the present cells in two halves and
    lies between two of them *)
Lemma median_halves (col : list (option Q)) (m : Q) :
  median col = Some m ->
  (List.length (present col)
   <= 2 * List.length (filter (fun x => Qle_bool x m) (present col)))%nat /\
  (List.length (present col)
   <= 2 * List.length (filter (fun x => Qle_bool m x) (present col)))%nat /\
  exists lo hi, In (Some lo) col /\ In (Some hi) col /\ lo <= m <= hi.
Proof.
  unfold median. set (vals := present col).
  set (s := stable_sort (fun q : Q => q) vals).
  assert (Hperm : Permutation vals s) by apply insertion_sort_permutation.
  assert (Hsort : StronglySorted Qle s).
  { apply (insertion_sort_sorted (fun x y => Qle_bool x y) (fun q : Q => q)).
    - intros x y E. now apply Qle_bool_iff.
    - intros x y E. now apply Qle_bool_false. }
  rewrite (Permutation_length Hperm).
  rewrite !(filter_length_permutation _ _ _ Hperm).
  assert (Hin : forall i, (i < List.length s)%nat -> In (Some (nth i s 0)) col).
  { intros i Hi. apply present_In. apply (Permutation_in _ (Permutation_sym Hperm)).
    now apply nth_In. }
  set (n := List.length s) in *.
  destruct n as [|n'] eqn:En; [discriminate|]. rewrite <- En in *.
  assert (Hpos : (0 < n)%nat) by lia. clear En n'.
  destruct (Nat.even n) eqn:Ev.
  - (* an even number of costs: the mean of the two middle ones *)
    apply Nat.even_spec in Ev. destruct Ev as [q Eq].
    assert (Hq : (n / 2 = q)%nat)
      by (rewrite Eq, Nat.mul_comm; apply Nat.div_mul; lia).
    rewrite Hq. intro H. injection H as <-.
    set (x := nth (q - 1) s 0). set (y := nth q s 0).
    assert (Hxy : x <= y) by (apply sorted_nth_le; [exact Hsort | fold n; lia]).
    assert (Hm : x <= (x + y) / 2 <= y).
    { split.
      - apply Qle_shift_div_l; [reflexivity | lra].
      - apply Qle_shift_div_r; [reflexivity | lra]. }
    split; [|split].
    + pose proof (count_prefix (fun z => Qle_bool z ((x + y) / 2)) s (q - 1)
                    ltac:(fold n; lia)) as Hc.
      cbv beta in Hc. fold n in Hc |- *. rewrite Eq.
      assert (Hc' : (q - 1 + 1 <= List.length
                       (filter (fun z => Qle_bool z ((x + y) / 2)) s))%nat).
      { apply Hc. intros i Hi. apply Qle_bool_iff.
        eapply Qle_trans; [|apply Hm].
        apply sorted_nth_le; [exact Hsort | fold n; lia]. }
      lia.
    + pose proof (count_suffix (fun z => Qle_bool ((x + y) / 2) z) s q) as Hc.
      cbv beta in Hc. fold n in Hc |- *.
      assert (Hc' : (n - q <= List.length
                       (filter (fun z => Qle_bool ((x + y) / 2) z) s))%nat).
      { apply Hc. intros i Hi. apply Qle_bool_iff.
        eapply Qle_trans; [apply Hm|].
        apply sorted_nth_le; [exact Hsort | fold n; lia]. }
      lia.
    + exists x, y. split; [apply Hin; lia|]. split; [apply Hin; lia | exact Hm].
  - (* an odd number of costs: the middle one *)
    assert (Hodd : Nat.odd n = true) by (rewrite <- Nat.negb_even, Ev; reflexivity).
    apply Nat.odd_spec in Hodd. destruct Hodd as [q Eq].
    assert (Hq : (n / 2 = q)%nat)
      by (symmetry; apply (Nat.div_unique n 2 q 1); lia).
    rewrite Hq. intro H. injection H as <-.
    set (y := nth q s 0).
    split; [|split].
    + pose proof (count_prefix (fun z => Qle_bool z y) s q ltac:(fold n; lia)) as Hc.
      cbv beta in Hc. fold n in Hc |- *.
      assert (Hc' : (q + 1 <= List.length (filter (fun z => Qle_bool z y) s))%nat).
      { apply Hc. intros i Hi. apply Qle_bool_iff.
        apply sorted_nth_le; [exact Hsort | fold n; lia]. }
      lia.
    + pose proof (count_suffix (fun z => Qle_bool y z) s q) as Hc.
      cbv beta in Hc. fold n in Hc |- *.
      assert (Hc' : (n - q <= List.length (filter (fun z => Qle_bool y z) s))%nat).
      { apply Hc. intros i Hi. apply Qle_bool_iff.
        apply sorted_nth_le; [exact Hsort | fold n; lia]. }
      lia.
    + exists y, y.
      split; [apply Hin; lia|]. split; [apply Hin; lia|]. split; apply Qle_refl.
Qed.

(** X6: the value that fills the missing costs is a median of the costs
    that are present: at least half of them are at most it, at least half
    are at least it, and it lies between two of them. *)
Theorem median_splits (col : list (option Q)) (m : Q) :
  median col = Some m ->
  (List.length (present col)
   <= 2 * List.length (filter (fun x => Qle_bool x m) (present col)))%nat /\
  (List.length (present col)
   <= 2 * List.length (filter (fun x => Qle_bool m x) (present col)))%nat /\
  exists lo hi, In (Some lo) col /\ In (Some hi) col /\ lo <= m <= hi.
Proof. exact (median_halves col m). Qed.

Lemma median_splits_witness :
  exists lo hi,
    In (Some lo) [Some 120; None; Some 350; None] /\
    In (Some hi) [Some 120; None; Some 350; None] /\
    lo <= (120 + 350) / 2 <= hi.
Proof.
  apply (median_splits [Some 120; None; Some 350; None] ((120 + 350) / 2)).
  reflexivity.
Defined.

(** *** More on [normalize] *)

Lemma scale_le_iff mn mx x y :
  mn <= mx -> (scale mn mx x <= scale mn mx y <-> x <= y).
Proof.
  intro H. unfold scale, Qdiv.
  rewrite Qmult_le_r by (apply Qinv_lt_0_compat, scale_denominator_pos, H).
  split; intro L; lra.
Qed.

Lemma normalize_nth col i :
  (i < List.length col)%nat ->
  nth i (normalize col) 0 = scale (col_min col) (col_max col) (nth i col 0).
Proof.
  intro Hi. unfold normalize.
  rewrite (nth_indep _ 0 (scale (col_min col) (col_max col) 0))
    by (now rewrite length_map).
  apply map_nth.
Qed.

(** X7: [normalize] never reverses the order of two cells of a column: a
    cell that is not above another one is not above it after it either. *)
Theorem normalize_keeps_order (col : list Q) (i j : nat) :
  (i < List.length col)%nat -> (j < List.length col)%nat ->
  nth i col 0 <= nth j col 0 ->
  nth i (normalize col) 0 <= nth j (normalize col) 0.
Proof.
  intros Hi Hj H. rewrite !normalize_nth by assumption.
  apply scale_le_iff; [apply col_min_le_max | exact H].
Qed.

Lemma normalize_keeps_order_witness :
  nth 1 (normalize [3; 1; 2]) 0 <= nth 2 (normalize [3; 1; 2]) 0.
Proof.
  apply (normalize_keeps_order [3; 1; 2] 1 2); simpl; try lia. discriminate.
Defined.

(** X8: in a non-empty column some cell holds the minimum; every cell that
    holds the minimum is 0 after [normalize], and a cell that holds the
    maximum has the greatest normalised value of the column, which is at
    most 1. *)
Theorem normalize_extremes (col : list Q) :
  col <> [] ->
  (exists i, (i < List.length col)%nat /\ nth i col 0 == col_min col) /\
  (forall i, (i < List.length col)%nat -> nth i col 0 == col_min col ->
             nth i (normalize col) 0 == 0) /\
  (forall i j, (i < List.length col)%nat -> (j < List.length col)%nat ->
               nth j col 0 == col_max col ->
               nth i (normalize col) 0 <= nth j (normalize col) 0 <= 1).
Proof.
  intro Hne. split; [|split].
  - destruct (col_min_in col Hne) as (x & Hx & E).
    destruct (In_nth col x 0 Hx) as (i & Hi & Ei).
    exists i. split; [exact Hi|]. rewrite Ei. now symmetry.
  - intros i Hi E. rewrite normalize_nth by exact Hi. now apply scale_at_min.
  - intros i j Hi Hj E. rewrite !normalize_nth by assumption. split.
    + apply scale_le_iff; [apply col_min_le_max|].
      rewrite E. apply col_max_ge, nth_In, Hi.
    + apply Qlt_le_weak.
      apply scale_bounds; [apply col_min_le | apply col_max_ge]; apply nth_In, Hj.
Qed.

Lemma normalize_extremes_witness :
  nth 1 (normalize [3; 1; 2]) 0 == 0 /\
  nth 2 (normalize [3; 1; 2]) 0 <= nth 0 (normalize [3; 1; 2]) 0 <= 1.
Proof.
  destruct (normalize_extremes [3; 1; 2] ltac:(discriminate)) as (_ & Hmin & Hmax).
  split.
  - apply Hmin; [simpl; lia | reflexivity].
  - apply Hmax; simpl; try lia. reflexivity.
Defined.

(** *** The outcome of a request *)

Lemma options_in available fleet rd o :
  In o (options available fleet rd) <->
  exists wh v,
    In wh available /\ In v fleet /\
    o = make_option (col_mean (map Routes.distance_km rd))
                    (col_mean (map Routes.traffic_delay_minutes rd))
                    (col_mean (map Routes.weather_impact rd))
                    (col_mean (map Routes.total_cost rd)) wh v.
Proof.
  unfold options. rewrite in_flat_map. split.
  - intros (wh & Hwh & Ho). apply in_map_iff in Ho. destruct Ho as (v & <- & Hv).
    now exists wh, v.
  - intros (wh & v & Hwh & Hv & ->). exists wh. split; [exact Hwh|].
    now apply in_map.
Qed.

Lemma is_empty_nil {A : Type} (l : list A) : is_empty l = true <-> l = [].
Proof. destruct l; simpl; split; congruence. Qed.

(** what a request that ends with a recommendation went through *)
Lemma submit_ok (P : PatternEngine) (K : SortKind) (t : Tables)
    (product : string) (priority : Priority) (destination : string)
    (options_df : list Scored) (best : Scored) :
  submit t product priority destination = Ok (options_df, best) <->
  exists found,
    available_wh (warehouse t) product <> [] /\
    re_search destination = Some found /\
    route_data (routes t) found <> [] /\
    fleet t <> [] /\
    options_df = scored_columns (options (available_wh (warehouse t) product) (fleet t)
                                         (route_data (routes t) found)) /\
    best_option options_df = Some best.
Proof.
  unfold submit, generate, scoring. split.
  - destruct (is_empty (available_wh (warehouse t) product)) eqn:Ea; [discriminate|].
    destruct (str_accessor (map Routes.route (routes t))); [|discriminate].
    destruct (re_search destination) as [found|]; [|discriminate].
    cbn [negb]. cbv zeta.
    destruct (is_empty (route_data (routes t) found)) eqn:Er; [discriminate|].
    cbn [bind].
    destruct (is_empty (options _ _ _)) eqn:Eo; [discriminate|]. cbn [bind].
    destruct (best_option _) as [b|] eqn:Eb; [|discriminate].
    intro H. injection H as <- <-. exists found.
    assert (Hf : fleet t <> []).
    { intro Hf. rewrite Hf in Eo. unfold options in Eo.
      induction (available_wh (warehouse t) product) as [|w ws IH];
        [discriminate Ea|].
      clear -Eo. induction (w :: ws) as [|x xs IHx]; simpl in Eo; [discriminate|].
      auto. }
    repeat split; try assumption.
    + intro E. apply is_empty_nil in E. congruence.
    + intro E. apply is_empty_nil in E. congruence.
  - intros (found & Ha & Hc & Hr & Hf & -> & Hb).
    rewrite (is_empty_false _ Ha), (route_data_accessor _ _ Hr), Hc.
    cbn [negb]. cbv zeta. rewrite (is_empty_false _ Hr). cbn [bind].
    assert (Ho : options (available_wh (warehouse t) product) (fleet t)
                   (route_data (routes t) found) <> []).
    { intro E. apply (f_equal (@List.length _)) in E.
      rewrite options_length in E. simpl in E.
      destruct (available_wh (warehouse t) product); [congruence|].
      destruct (fleet t); [congruence|]. discriminate E. }
    rewrite (is_empty_false _ Ho). cbn [bind]. now rewrite Hb.
Qed.

Lemma options_nonempty available fleet rd :
  available <> [] -> fleet <> [] -> options available fleet rd <> [].
Proof.
  intros Ha Hf E. apply (f_equal (@List.length _)) in E.
  rewrite options_length in E.
  destruct available; [congruence|]. destruct fleet; [congruence|]. discriminate E.
Qed.

Lemma scored_columns_nonempty opts : opts <> [] -> scored_columns opts <> [].
Proof.
  intros Ho E. apply (f_equal (@List.length _)) in E.
  rewrite scored_columns_length in E. destruct opts; [congruence | discriminate E].
Qed.

(** X10: a request ends with a recommendation exactly when some warehouse
    is eligible, the destination is a pattern that [re] accepts and that the
    label of some route matches, and the fleet has a vehicle.  With an
    eligible warehouse, a matching route and an empty fleet it ends with a
    [KeyError], not with a message; with an eligible warehouse and a
    destination that [re] refuses it ends with [re.error]; it never ends
    with an [IndexError]. *)
Theorem request_outcome (P : PatternEngine) (K : SortKind) (t : Tables)
    (product : string) (priority : Priority) (destination : string) :
  submit t product priority destination <> Stop IndexError /\
  ((exists options_df best,
      submit t product priority destination = Ok (options_df, best)) <->
   available_wh (warehouse t) product <> [] /\ fleet t <> [] /\
   exists found, re_search destination = Some found /\
                 route_data (routes t) found <> []) /\
  (forall found,
     available_wh (warehouse t) product <> [] ->
     re_search destination = Some found ->
     route_data (routes t) found <> [] ->
     fleet t = [] ->
     submit t product priority destination = Stop KeyError) /\
  (available_wh (warehouse t) product <> [] ->
   str_accessor (map Routes.route (routes t)) = true ->
   re_search destination = None ->
   submit t product priority destination = Stop ReError).
Proof.
  split; [|split; [|split]].
  - unfold submit, generate, scoring.
    destruct (is_empty (available_wh (warehouse t) product)); [discriminate|].
    destruct (negb (str_accessor (map Routes.route (routes t)))); [discriminate|].
    destruct (re_search destination) as [found|]; [|discriminate]. cbv zeta.
    destruct (is_empty (route_data (routes t) found)); [discriminate|]. cbn [bind].
    destruct (is_empty (options _ _ _)) eqn:Eo; [discriminate|]. cbn [bind].
    assert (Hne : scored_columns
                    (options (available_wh (warehouse t) product) (fleet t)
                             (route_data (routes t) found)) <> []).
    { apply scored_columns_nonempty. intro E. rewrite E in Eo. discriminate Eo. }
    destruct (best_option_minimum K _ Hne) as (b & Hb & _).
    rewrite Hb. discriminate.
  - split.
    + intros (df & best & H). apply submit_ok in H.
      destruct H as (found & Ha & Hc & Hr & Hf & _ & _).
      split; [exact Ha|]. split; [exact Hf|]. now exists found.
    + intros (Ha & Hf & found & Hc & Hr).
      assert (Hne : scored_columns
                      (options (available_wh (warehouse t) product) (fleet t)
                               (route_data (routes t) found)) <> [])
        by (apply scored_columns_nonempty; now apply options_nonempty).
      destruct (best_option_minimum K _ Hne) as (b & Hb & _).
      * exists (scored_columns
                  (options (available_wh (warehouse t) product) (fleet t)
                           (route_data (routes t) found))), b.
        apply submit_ok. exists found.
        split; [exact Ha|]. split; [exact Hc|]. split; [exact Hr|].
        split; [exact Hf|]. split; [reflexivity | exact Hb].
  - intros found Ha Hc Hr Hf. unfold submit, generate, scoring.
    rewrite (is_empty_false _ Ha), (route_data_accessor _ _ Hr), Hc.
    cbn [negb]. cbv zeta. rewrite (is_empty_false _ Hr). cbn [bind].
    rewrite Hf. unfold options.
    assert (E : flat_map (fun wh => map (make_option
                  (col_mean (map Routes.distance_km (route_data (routes t) found)))
                  (col_mean (map Routes.traffic_delay_minutes (route_data (routes t) found)))
                  (col_mean (map Routes.weather_impact (route_data (routes t) found)))
                  (col_mean (map Routes.total_cost (route_data (routes t) found))) wh)
                  (@nil Fleet.row))
                (available_wh (warehouse t) product) = []).
    { clear Ha. induction (available_wh (warehouse t) product) as [|w ws IH]; simpl;
        [reflexivity | exact IH]. }
    cbv zeta. rewrite E. reflexivity.
  - intros Ha Hacc Hre. unfold submit, generate.
    rewrite (is_empty_false _ Ha), Hacc, Hre. reflexivity.
Qed.

Lemma request_outcome_witness :
  submit (E := fragment_engine) (K := stable_kind)
    {| warehouse := Sample.warehouses; fleet := []; routes := routes Sample.tables |}
    "Electronics" Express "chennai" = Stop KeyError.
Proof.
  apply (proj1 (proj2 (proj2 (request_outcome fragment_engine stable_kind
           {| warehouse := Sample.warehouses; fleet := [];
              routes := routes Sample.tables |} "Electronics" Express "chennai")))
           (search [Lit "c"; Lit "h"; Lit "e"; Lit "n"; Lit "n"; Lit "a"; Lit "i"]%char)).
  - vm_compute. discriminate.
  - reflexivity.
  - vm_compute. discriminate.
  - reflexivity.
Defined.

(** *** The candidates and the recommendation *)

(** the four means of the matching routes, as the candidates carry them *)
Definition route_means (rd : list Routes.row) (wh : Warehouse.row) (v : Fleet.row)
    : Candidate :=
  make_option (col_mean (map Routes.distance_km rd))
              (col_mean (map Routes.traffic_delay_minutes rd))
              (col_mean (map Routes.weather_impact rd))
              (col_mean (map Routes.total_cost rd)) wh v.

Definition headroom (wh : Warehouse.row) : Q :=
  Warehouse.current_stock_units wh - Warehouse.reorder_level wh.

(** the rows of the scored table of a request *)
Lemma request_rows (P : PatternEngine) (K : SortKind) (t : Tables)
    (product : string) (priority : Priority) (destination : string)
    (options_df : list Scored) (best : Scored) :
  submit t product priority destination = Ok (options_df, best) ->
  exists rd opts,
    options_df = scored_columns opts /\
    (forall o, In o opts <->
       exists wh v, In wh (available_wh (warehouse t) product) /\ In v (fleet t) /\
                    o = route_means rd wh v) /\
    (forall r, In r options_df <-> exists o, In o opts /\ r = score_row opts o) /\
    In best options_df /\
    (forall r, In r options_df -> fulfillment_score best <= fulfillment_score r).
Proof.
  intro H. apply submit_ok in H.
  destruct H as (found & Ha & Hc & Hr & Hf & -> & Hb).
  exists (route_data (routes t) found).
  exists (options (available_wh (warehouse t) product) (fleet t)
            (route_data (routes t) found)).
  split; [reflexivity|]. split; [intro o; apply options_in|]. split.
  - intro r. rewrite scored_columns_rows, in_map_iff. split.
    + intros (o & <- & Ho). now exists o.
    + intros (o & Ho & ->). now exists o.
  - assert (Hne : scored_columns
                    (options (available_wh (warehouse t) product) (fleet t)
                             (route_data (routes t) found)) <> [])
      by (apply scored_columns_nonempty; now apply options_nonempty).
    destruct (best_option_minimum K _ Hne) as (b & Hb' & Hin & Hmin).
    rewrite Hb in Hb'. injection Hb' as <-. now split.
Qed.

(** the score of a row when every candidate carries the same route means *)
Lemma uniform_row_score (opts : list Candidate) (c d dl : Q) (o : Candidate) :
  (forall y, In y opts -> cost y = c /\ distance_km y = d /\ delay y = dl) ->
  In o opts ->
  fulfillment_score (score_row opts o)
  == (10 # 100) * stat (map co2 opts) (co2 o)
     + (10 # 100) * (1 - stat (map inventory_health opts) (inventory_health o)).
Proof.
  intros Hsame Ho.
  assert (Hc : stat (map cost opts) (cost o) == 0).
  { apply (stat_const cost opts c); [|exact Ho].
    intros y Hy. now rewrite (proj1 (Hsame y Hy)). }
  assert (Hd : stat (map distance_km opts) (distance_km o) == 0).
  { apply (stat_const distance_km opts d); [|exact Ho].
    intros y Hy. now rewrite (proj1 (proj2 (Hsame y Hy))). }
  assert (Hdl : stat (map delay opts) (delay o) == 0).
  { apply (stat_const delay opts dl); [|exact Ho].
    intros y Hy. now rewrite (proj2 (proj2 (Hsame y Hy))). }
  unfold score_row. cbn [fulfillment_score].
  unfold score, w_cost, w_delay, w_distance, w_co2, w_inventory.
  rewrite Hc, Hd, Hdl. lra.
Qed.

(** the candidates of a request carry the same route means *)
Lemma request_uniform (rd : list Routes.row) (opts : list Candidate) :
  (forall o, In o opts -> exists wh v, o = route_means rd wh v) ->
  forall y, In y opts ->
    cost y = col_mean (map Routes.total_cost rd) /\
    distance_km y = col_mean (map Routes.distance_km rd) /\
    delay y = col_mean (map Routes.traffic_delay_minutes rd)
              + col_mean (map Routes.weather_impact rd).
Proof.
  intros H y Hy. destruct (H y Hy) as (wh & v & ->). repeat split.
Qed.

(** X11: every row of the scored table, the best option among them, joins
    an eligible warehouse of the requested product with a vehicle of the
    fleet: its headroom is the stock above the reorder level of that
    warehouse, is positive, and its [co2] is the emission rate of that
    vehicle times the mean distance. *)
Theorem candidates_are_eligible (P : PatternEngine) (K : SortKind) (t : Tables)
    (product : string) (priority : Priority) (destination : string) (options_df : list Scored)
    (best : Scored) :
  submit t product priority destination = Ok (options_df, best) ->
  In best options_df /\
  forall r, In r options_df ->
    exists wh v,
      In wh (warehouse t) /\ Warehouse.product_category wh = product /\
      In v (fleet t) /\
      c_warehouse (candidate r) = Warehouse.location wh /\
      c_vehicle (candidate r) = Fleet.vehicle_type v /\
      fuel_efficiency (candidate r) = Fleet.fuel_efficiency_km_per_l v /\
      co2 (candidate r)
      = Fleet.co2_emissions_kg_per_km v * distance_km (candidate r) /\
      inventory_health (candidate r) = headroom wh /\
      0 < inventory_health (candidate r).
Proof.
  intro H. destruct (request_rows P K _ _ _ _ _ _ H)
    as (rd & opts & -> & Hopts & Hrows & Hbest & _).
  split; [exact Hbest|]. intros r Hr.
  apply Hrows in Hr. destruct Hr as (o & Ho & ->).
  apply Hopts in Ho. destruct Ho as (wh & v & Hwh & Hv & ->).
  unfold available_wh, eligible in Hwh. apply filter_In in Hwh.
  destruct Hwh as [Hin Hel]. apply andb_true_iff in Hel. destruct Hel as [Hp Hs].
  apply String.eqb_eq in Hp. apply Qltb_lt in Hs.
  exists wh, v. cbn. unfold headroom. repeat split; try assumption; try reflexivity.
  lra.
Qed.

Lemma candidates_are_eligible_witness :
  exists options_df best,
    submit (E := fragment_engine) (K := stable_kind) Sample.tables "Electronics"
      Express "chennai"
    = Ok (options_df, best) /\ In best options_df.
Proof.
  destruct (submit (E := fragment_engine) (K := stable_kind) Sample.tables
              "Electronics" Express "chennai")
    as [[options_df best]|c] eqn:E.
  - exists options_df, best. split; [reflexivity|].
    apply (candidates_are_eligible fragment_engine stable_kind Sample.tables
             "Electronics" Express "chennai" options_df best E).
  - vm_compute in E. discriminate E.
Defined.

(** X12: no candidate beats the recommendation: a candidate of the request
    with no more [co2] and no less headroom than the best option has the
    score of the best option, whatever the sort. *)
Theorem best_is_not_dominated (P : PatternEngine) (K : SortKind) (t : Tables)
    (product : string) (priority : Priority) (destination : string)
    (options_df : list Scored) (best : Scored) :
  submit t product priority destination = Ok (options_df, best) ->
  forall r, In r options_df ->
    co2 (candidate r) <= co2 (candidate best) ->
    inventory_health (candidate best) <= inventory_health (candidate r) ->
    fulfillment_score r == fulfillment_score best.
Proof.
  intro H. destruct (request_rows P K _ _ _ _ _ _ H)
    as (rd & opts & -> & Hopts & Hrows & Hbest & Hmin).
  intros r Hr. specialize (Hmin r Hr).
  apply Hrows in Hbest. destruct Hbest as (ob & Hob & ->).
  apply Hrows in Hr. destruct Hr as (o & Ho & ->).
  cbn [candidate score_row]. intros Hco Hinv.
  assert (Hsame := request_uniform rd opts
            (fun x Hx => match proj1 (Hopts x) Hx with
                         | ex_intro _ wh (ex_intro _ v (conj _ (conj _ Ex))) =>
                             ex_intro _ wh (ex_intro _ v Ex)
                         end)).
  apply Qle_antisym; [|exact Hmin].
  rewrite (uniform_row_score opts _ _ _ o Hsame Ho).
  rewrite (uniform_row_score opts _ _ _ ob Hsame Hob).
  unfold stat.
  assert (G1 := proj2 (scale_le_iff _ _ _ _ (col_min_le_max (map co2 opts))) Hco).
  assert (G2 := proj2 (scale_le_iff _ _ _ _
                         (col_min_le_max (map inventory_health opts))) Hinv).
  lra.
Qed.

Lemma best_is_not_dominated_witness :
  exists options_df best,
    submit (E := fragment_engine) (K := unstable_kind) Sample.tied_tables
      "Electronics" Express "chennai"
    = Ok (options_df, best) /\
    Forall (fun r => c_warehouse (candidate r) = "Delhi" ->
                     fulfillment_score r == fulfillment_score best) options_df.
Proof.
  destruct (submit (E := fragment_engine) (K := unstable_kind) Sample.tied_tables
              "Electronics" Express "chennai")
    as [[options_df best]|c] eqn:E.
  - exists options_df, best. split; [reflexivity|].
    apply Forall_forall. intros r Hr Hw.
    apply (best_is_not_dominated fragment_engine unstable_kind Sample.tied_tables
             "Electronics" Express "chennai" options_df best E r Hr);
      vm_compute in E; injection E as <- <-; simpl in Hr;
      repeat (destruct Hr as [<-|Hr]; [try discriminate Hw; vm_compute; discriminate|]);
      contradiction.
  - vm_compute in E. discriminate E.
Defined.

(** X13: the radar chart of the recommendation shows 0 on the cost, delay
    and distance axes and a value between 0 and 1 on the CO2 and inventory
    axes; the best score lies between 0 and 0.1. *)
Theorem best_option_radar (P : PatternEngine) (K : SortKind) (t : Tables)
    (product : string) (priority : Priority) (destination : string)
    (options_df : list Scored) (best : Scored) :
  submit t product priority destination = Ok (options_df, best) ->
  Forall2 Qeq (firstn 3 (radar best)) [0; 0; 0] /\
  Forall (fun x => 0 <= x <= 1) (radar best) /\
  0 <= fulfillment_score best <= 10 # 100.
Proof.
  intro H. destruct (request_rows P K _ _ _ _ _ _ H)
    as (rd & opts & -> & Hopts & Hrows & Hbest & Hmin).
  pose proof (scored_columns_range opts best Hbest) as (R1 & R2 & R3 & R4 & R5 & R6).
  pose proof Hbest as Hb. apply Hrows in Hb. destruct Hb as (ob & Hob & Eb).
  assert (Hsame := request_uniform rd opts
            (fun x Hx => match proj1 (Hopts x) Hx with
                         | ex_intro _ wh (ex_intro _ v (conj _ (conj _ Ex))) =>
                             ex_intro _ wh (ex_intro _ v Ex)
                         end)).
  assert (Hc0 : cost_n best == 0).
  { rewrite Eb. cbn [cost_n score_row].
    apply (stat_const cost opts (col_mean (map Routes.total_cost rd))); [|exact Hob].
    intros y Hy. now rewrite (proj1 (Hsame y Hy)). }
  assert (Hdl0 : delay_risk best == 0).
  { rewrite Eb. cbn [delay_risk score_row].
    apply (stat_const delay opts
             (col_mean (map Routes.traffic_delay_minutes rd)
              + col_mean (map Routes.weather_impact rd))); [|exact Hob].
    intros y Hy. now rewrite (proj2 (proj2 (Hsame y Hy))). }
  assert (Hd0 : distance_n best == 0).
  { rewrite Eb. cbn [distance_n score_row].
    apply (stat_const distance_km opts (col_mean (map Routes.distance_km rd)));
      [|exact Hob].
    intros y Hy. now rewrite (proj1 (proj2 (Hsame y Hy))). }
  split; [|split].
  - unfold radar. cbn [firstn]. repeat constructor; assumption.
  - unfold radar. repeat (apply Forall_cons; [assumption|]). apply Forall_nil.
  - split; [apply R6|].
    (* a candidate of the least [co2] has a score of 0.1 at most *)
    assert (Hne : map co2 opts <> [])
      by (destruct opts; [contradiction | discriminate]).
    destruct (col_min_in (map co2 opts) Hne) as (x & Hx & Emin).
    apply in_map_iff in Hx. destruct Hx as (o & <- & Ho).
    assert (Hr : In (score_row opts o) (scored_columns opts))
      by (apply Hrows; now exists o).
    eapply Qle_trans; [apply (Hmin _ Hr)|].
    rewrite (uniform_row_score opts _ _ _ o Hsame Ho).
    assert (Hco : stat (map co2 opts) (co2 o) == 0)
      by (apply scale_at_min; now symmetry).
    pose proof (stat_range inventory_health opts o Ho) as Hinv.
    rewrite Hco. lra.
Qed.

Lemma best_option_radar_witness :
  exists options_df best,
    submit (E := fragment_engine) (K := stable_kind) Sample.tables "Electronics"
      Express "chennai"
    = Ok (options_df, best) /\
    0 <= fulfillment_score best <= 10 # 100.
Proof.
  destruct (submit (E := fragment_engine) (K := stable_kind) Sample.tables
              "Electronics" Express "chennai")
    as [[options_df best]|c] eqn:E.
  - exists options_df, best. split; [reflexivity|].
    apply (best_option_radar fragment_engine stable_kind Sample.tables "Electronics"
             Express "chennai" options_df best E).
  - vm_compute in E. discriminate E.
Defined.

(** X14: the scoring engine adds its columns to the candidates without
    losing or moving a row, and the features of a row are those of its own
    candidate: each is the raw value of the candidate scaled by the minimum
    and the maximum of its column, and the score is the weighted sum of the
    five features of the row. *)
Theorem scored_table_rows (opts : list Candidate) (i : nat) (o : Candidate) :
  nth_error opts i = Some o ->
  List.length (scored_columns opts) = List.length opts /\
  map candidate (scored_columns opts) = opts /\
  exists r,
    nth_error (scored_columns opts) i = Some r /\
    candidate r = o /\
    cost_n r = scale (col_min (map cost opts)) (col_max (map cost opts)) (cost o) /\
    delay_risk r
    = scale (col_min (map delay opts)) (col_max (map delay opts))
            (traffic_delay_minutes o + weather_impact o) /\
    distance_n r
    = scale (col_min (map distance_km opts)) (col_max (map distance_km opts))
            (distance_km o) /\
    co2_n r = scale (col_min (map co2 opts)) (col_max (map co2 opts)) (co2 o) /\
    inventory_n r
    = 1 - scale (col_min (map inventory_health opts))
                (col_max (map inventory_health opts)) (inventory_health o) /\
    fulfillment_score r
    = score (cost_n r) (delay_risk r) (distance_n r) (co2_n r) (inventory_n r).
Proof.
  intro Hi. split; [apply scored_columns_length|].
  split; [apply scored_columns_candidates|].
  exists (score_row opts o). split.
  - rewrite scored_columns_rows. now apply map_nth_error.
  - repeat split.
Qed.

Lemma scored_table_rows_witness :
  exists r,
    nth_error (scored_columns [Sample.blank "Pune" "Van"; Sample.blank "Pune" "Bike"]) 1
    = Some r /\
    candidate r = Sample.blank "Pune" "Bike".
Proof.
  destruct (scored_table_rows [Sample.blank "Pune" "Van"; Sample.blank "Pune" "Bike"]
              1 (Sample.blank "Pune" "Bike") eq_refl) as (_ & _ & r & Hr & Hc & _).
  exists r. split; [exact Hr | exact Hc].
Defined.

(** *** The inventory gauge and the heat map *)

Lemma NoDup_map_eq {A B : Type} (f : A -> B) (l : list A) (x y : A) :
  NoDup (map f l) -> In x l -> In y l -> f x = f y -> x = y.
Proof.
  induction l as [|a l IH]; simpl; [contradiction|].
  intro Hnd. inversion Hnd as [|? ? Hnot Hnd']; subst.
  intros [->|Hx] [->|Hy] E.
  - reflexivity.
  - exfalso. apply Hnot. rewrite E. now apply in_map.
  - exfalso. apply Hnot. rewrite <- E. now apply in_map.
  - now apply IH.
Qed.

(** X15: the gauge of a recommendation is always drawn: the look-up of the
    recommended warehouse by its location finds an eligible warehouse of
    that location, whose reorder mark is below the stock shown (and the
    stock below the end of the axis when the reorder level is not
    negative).  When the eligible warehouses have distinct locations, the
    warehouse found is the one the recommendation was computed from. *)
Theorem gauge_of_recommendation (P : PatternEngine) (K : SortKind) (t : Tables)
    (product : string) (priority : Priority) (destination : string) (options_df : list Scored)
    (best : Scored) :
  submit t product priority destination = Ok (options_df, best) ->
  exists w,
    rec_wh_data (available_wh (warehouse t) product) best = Some w /\
    In w (available_wh (warehouse t) product) /\
    Warehouse.location w = c_warehouse (candidate best) /\
    threshold (fig_gauge w) < value (fig_gauge w) /\
    (0 <= Warehouse.reorder_level w -> value (fig_gauge w) < axis_max (fig_gauge w)) /\
    (NoDup (map Warehouse.location (available_wh (warehouse t) product)) ->
     inventory_health (candidate best) = headroom w).
Proof.
  intro H. destruct (request_rows P K _ _ _ _ _ _ H)
    as (rd & opts & -> & Hopts & Hrows & Hbest & _).
  apply Hrows in Hbest. destruct Hbest as (ob & Hob & ->).
  apply Hopts in Hob. destruct Hob as (wb & vb & Hwb & Hvb & ->).
  unfold rec_wh_data. cbn [candidate score_row route_means make_option c_warehouse].
  set (found := filter (fun w => String.eqb (Warehouse.location w)
                                            (Warehouse.location wb))
                       (available_wh (warehouse t) product)).
  assert (Hin : In wb found)
    by (apply filter_In; split; [exact Hwb | apply String.eqb_refl]).
  destruct found as [|w ws] eqn:Ef; [contradiction|].
  assert (Hw : In w found) by (rewrite Ef; now left).
  apply filter_In in Hw. destruct Hw as [Hw Hloc]. apply String.eqb_eq in Hloc.
  exists w. split; [reflexivity|]. split; [exact Hw|]. split; [exact Hloc|].
  assert (Hel : Warehouse.reorder_level w < Warehouse.current_stock_units w).
  { unfold available_wh in Hw. apply filter_In in Hw. destruct Hw as [_ Hel].
    unfold eligible in Hel. apply andb_true_iff in Hel. now apply Qltb_lt. }
  cbn [fig_gauge threshold value axis_max inventory_health]. unfold headroom.
  split; [exact Hel|]. split.
  - intro H0. lra.
  - intro Hnd.
    now rewrite (NoDup_map_eq Warehouse.location _ w wb Hnd Hw Hwb Hloc).
Qed.

Lemma gauge_of_recommendation_witness :
  exists options_df best w,
    submit (E := fragment_engine) (K := stable_kind) Sample.tables "Electronics"
      Express "chennai"
    = Ok (options_df, best) /\
    rec_wh_data (available_wh (warehouse Sample.tables) "Electronics") best = Some w /\
    threshold (fig_gauge w) < value (fig_gauge w).
Proof.
  destruct (submit (E := fragment_engine) (K := stable_kind) Sample.tables
              "Electronics" Express "chennai")
    as [[options_df best]|c] eqn:E.
  - destruct (gauge_of_recommendation fragment_engine stable_kind Sample.tables
                "Electronics" Express
                "chennai" options_df best E) as (w & Hw & _ & _ & Hlt & _).
    exists options_df, best, w. split; [reflexivity|]. split; [exact Hw | exact Hlt].
  - vm_compute in E. discriminate E.
Defined.

Lemma axis_labels_In l x : In x (axis_labels l) <-> In x l.
Proof.
  unfold axis_labels. split; intro H.
  - apply (Permutation_in _ (Permutation_sym
             (insertion_sort_permutation String.leb (unique l)))) in H.
    unfold unique in H. apply unique_from_In in H. tauto.
  - apply (Permutation_in _ (insertion_sort_permutation String.leb (unique l))).
    unfold unique. apply unique_from_In. simpl. tauto.
Qed.

Lemma col_sum_zero (l : list Q) : (forall x, In x l -> x == 0) -> col_sum l == 0.
Proof.
  unfold col_sum. intro H.
  assert (G : forall a, fold_left Qplus l a == a).
  { induction l as [|y ys IH]; intro a; simpl; [reflexivity|].
    rewrite IH by (intros x Hx; apply H; now right).
    rewrite (H y (or_introl eq_refl)). ring. }
  apply G.
Qed.

(** X16: the heat map of a request is flat: it has a row for the
    recommended warehouse, no cell is empty, and every cell, the mean delay
    risk of a warehouse with a vehicle, is 0. *)
Theorem heatmap_is_flat (P : PatternEngine) (K : SortKind) (t : Tables)
    (product : string) (priority : Priority) (destination : string) (options_df : list Scored)
    (best : Scored) :
  submit t product priority destination = Ok (options_df, best) ->
  In (c_warehouse (candidate best)) (map fst (heatmap_data options_df)) /\
  forall w row v cell,
    In (w, row) (heatmap_data options_df) -> In (v, cell) row ->
    exists q, cell = Some q /\ q == 0.
Proof.
  intro H. destruct (request_rows P K _ _ _ _ _ _ H)
    as (rd & opts & -> & Hopts & Hrows & Hbest & _).
  unfold heatmap_data. cbv zeta. split.
  - rewrite map_map. cbn [fst]. rewrite map_id. apply axis_labels_In.
    apply (in_map (fun r => c_warehouse (candidate r))). exact Hbest.
  - intros w row v cell Hw Hv.
    apply in_map_iff in Hw. destruct Hw as (w' & E & Hw). injection E as -> <-.
    apply in_map_iff in Hv. destruct Hv as (v' & E & Hv). injection E as -> <-.
    apply axis_labels_In, in_map_iff in Hw. destruct Hw as (r1 & <- & Hr1).
    apply axis_labels_In, in_map_iff in Hv. destruct Hv as (r2 & <- & Hr2).
    apply Hrows in Hr1. destruct Hr1 as (o1 & Ho1 & ->).
    apply Hrows in Hr2. destruct Hr2 as (o2 & Ho2 & ->).
    apply Hopts in Ho1. destruct Ho1 as (w1 & v1 & Hw1 & Hv1 & ->).
    apply Hopts in Ho2. destruct Ho2 as (w2 & v2 & Hw2 & Hv2 & ->).
    cbn [candidate score_row route_means make_option c_warehouse c_vehicle].
    assert (Hsame : forall y, In y opts ->
              delay y = col_mean (map Routes.traffic_delay_minutes rd)
                        + col_mean (map Routes.weather_impact rd)).
    { intros y Hy. apply Hopts in Hy. destruct Hy as (w & v & _ & _ & ->).
      reflexivity. }
    assert (Hzero : forall r, In r (scored_columns opts) -> delay_risk r == 0).
    { intros r Hr. apply Hrows in Hr. destruct Hr as (o & Ho & ->).
      cbn [delay_risk score_row].
      apply (stat_const delay opts
               (col_mean (map Routes.traffic_delay_minutes rd)
                + col_mean (map Routes.weather_impact rd))); [|exact Ho].
      intros y Hy. now rewrite (Hsame y Hy). }
    unfold pivot_cell.
    set (g := group (scored_columns opts) (Warehouse.location w1)
                (Fleet.vehicle_type v2)).
    assert (Hg : In (score_row opts (route_means rd w1 v2)) g).
    { apply filter_In. split.
      - apply Hrows. eexists. split; [|reflexivity]. apply Hopts. now exists w1, v2.
      - cbn. now rewrite !String.eqb_refl. }
    destruct g as [|r0 g0] eqn:Eg; [contradiction|].
    eexists. split; [reflexivity|].
    unfold col_mean, Qdiv. rewrite col_sum_zero; [apply Qmult_0_l|].
    intros x Hx. apply in_map_iff in Hx. destruct Hx as (r & <- & Hr).
    apply Hzero.
    assert (Hr' : In r (group (scored_columns opts) (Warehouse.location w1)
                          (Fleet.vehicle_type v2))) by (fold g; rewrite Eg; exact Hr).
    unfold group in Hr'. apply filter_In in Hr'. tauto.
Qed.

Lemma heatmap_is_flat_witness :
  exists options_df best,
    submit (E := fragment_engine) (K := stable_kind) Sample.tables "Electronics"
      Express "chennai"
    = Ok (options_df, best) /\
    In (c_warehouse (candidate best)) (map fst (heatmap_data options_df)).
Proof.
  destruct (submit (E := fragment_engine) (K := stable_kind) Sample.tables
              "Electronics" Express "chennai")
    as [[options_df best]|c] eqn:E.
  - exists options_df, best. split; [reflexivity|].
    apply (heatmap_is_flat fragment_engine stable_kind Sample.tables "Electronics" Express
             "chennai" options_df best E).
  - vm_compute in E. discriminate E.
Defined.

(** *** What the enrichment keeps *)

Definition not_negative (c : option Q) : Prop := forall q, c = Some q -> 0 <= q.

Lemma or_zero_not_negative c : not_negative c -> 0 <= or_zero c.
Proof. destruct c as [q|]; simpl; intro H; [now apply H | apply Qle_refl]. Qed.

Lemma col_sum_not_negative (l : list Q) : (forall x, In x l -> 0 <= x) -> 0 <= col_sum l.
Proof.
  unfold col_sum. intro H.
  assert (G : forall a, 0 <= a -> 0 <= fold_left Qplus l a).
  { induction l as [|y ys IH]; intros a Ha; simpl; [exact Ha|].
    apply IH; [intros x Hx; apply H; now right|].
    specialize (H y (or_introl eq_refl)). lra. }
  apply G, Qle_refl.
Qed.

Lemma total_cost_not_negative (c : Costs.row) :
  (forall cell, In cell (Costs.cells c) -> not_negative (snd cell)) ->
  0 <= total_cost c.
Proof.
  intro H. unfold total_cost. apply col_sum_not_negative.
  intros x Hx. apply in_map_iff in Hx. destruct Hx as (v & <- & Hv).
  apply or_zero_not_negative. unfold selected_cells in Hv.
  apply in_flat_map in Hv. destruct Hv as (col & _ & Hv).
  apply in_map_iff in Hv. destruct Hv as (cell & <- & Hc).
  apply filter_In in Hc. apply H, Hc.
Qed.

Lemma median_not_negative (col : list (option Q)) (m : Q) :
  (forall q, In (Some q) col -> 0 <= q) -> median col = Some m -> 0 <= m.
Proof.
  intro Hcol. unfold median.
  set (s := stable_sort (fun q : Q => q) (present col)).
  assert (Hs : forall i, (i < List.length s)%nat -> 0 <= nth i s 0).
  { intros i Hi. apply Hcol, present_In.
    apply (Permutation_in _ (Permutation_sym
             (insertion_sort_permutation (fun x y => Qle_bool x y) (present col)))).
    now apply nth_In. }
  destruct (List.length s) as [|n'] eqn:En; [discriminate|].
  assert (Hdiv : (S n' / 2 < S n')%nat) by (apply Nat.div_lt; lia).
  set (k := (S n' / 2)%nat) in *.
  destruct (Nat.even (S n')); intro H; injection H as <-.
  - assert (H1 : 0 <= nth (k - 1) s 0) by (apply Hs; lia).
    assert (H2 : 0 <= nth k s 0) by (apply Hs; lia).
    apply Qle_shift_div_l; [reflexivity | lra].
  - apply Hs. lia.
Qed.

Lemma weather_ordinal_range c : 0 <= weather_ordinal c <= 4.
Proof.
  unfold weather_ordinal, weather_mapping.
  repeat match goal with
         | |- context [String.eqb ?a ?b] => destruct (String.eqb a b)
         end; simpl; split; discriminate.
Qed.

(** X17: the enrichment keeps the tables free of negative numbers: when no
    cell of the routes, delivery and cost tables is negative, no number of
    the enriched routes table is, the filled cells and the imputed costs
    included; the weather ordinal lies between 0 and 4 whatever the
    tables. *)
Theorem enrich_not_negative (routes : list RawRoutes.row)
    (delivery : list Delivery.row) (costs : list Costs.row) :
  (forall r, In r routes ->
     not_negative (RawRoutes.distance_km r) /\
     not_negative (RawRoutes.traffic_delay_minutes r)) ->
  (forall d, In d delivery ->
     not_negative (Delivery.promised_delivery_days d) /\
     not_negative (Delivery.actual_delivery_days d) /\
     not_negative (Delivery.delivery_cost_inr d)) ->
  (forall c cell, In c costs -> In cell (Costs.cells c) -> not_negative (snd cell)) ->
  forall e, In e (enrich routes delivery costs) ->
    0 <= Routes.distance_km e /\ 0 <= Routes.traffic_delay_minutes e /\
    0 <= Routes.weather_impact e <= 4 /\
    0 <= Routes.promised_delivery_days e /\ 0 <= Routes.actual_delivery_days e /\
    0 <= Routes.delivery_cost_inr e /\ 0 <= Routes.total_cost e.
Proof.
  intros Hr Hd Hc e He. unfold enrich, fill_table in He.
  apply in_map_iff in He. destruct He as (m & <- & Hm).
  set (med := median (map Merged.total_cost (merge routes delivery costs))).
  assert (Hrow : forall m', In m' (merge routes delivery costs) ->
            not_negative (Merged.distance_km m') /\
            0 <= Merged.traffic_delay_minutes m' /\
            0 <= Merged.weather_impact m' <= 4 /\
            not_negative (Merged.promised_delivery_days m') /\
            not_negative (Merged.actual_delivery_days m') /\
            not_negative (Merged.delivery_cost_inr m') /\
            not_negative (Merged.total_cost m')).
  { intros m' Hm'. unfold merge in Hm'. apply left_join_in in Hm'.
    destruct Hm' as (m1 & Hm1 & Hcost). apply left_join_in in Hm1.
    destruct Hm1 as (r & Hin & Hdel). destruct (Hr r Hin) as [Hdist Htraffic].
    assert (Hm1' : not_negative (Merged.distance_km m1) /\
                   0 <= Merged.traffic_delay_minutes m1 /\
                   0 <= Merged.weather_impact m1 <= 4 /\
                   not_negative (Merged.promised_delivery_days m1) /\
                   not_negative (Merged.actual_delivery_days m1) /\
                   not_negative (Merged.delivery_cost_inr m1)).
    { destruct Hdel as [(d & Hind & _ & ->) | [_ ->]]; cbn.
      - destruct (Hd d Hind) as (H1 & H2 & H3).
        repeat split; try assumption;
          try apply weather_ordinal_range; now apply or_zero_not_negative.
      - repeat split; try assumption; try apply weather_ordinal_range;
          try (now apply or_zero_not_negative); intros q E; discriminate E. }
    destruct Hm1' as (H1 & H2 & H3 & H4 & H5 & H6).
    destruct Hcost as [(c & Hinc & _ & ->) | [_ ->]]; cbn;
      repeat split; try assumption; try apply H3.
    - intros q E. injection E as <-. apply total_cost_not_negative.
      intros cell Hcell. now apply (Hc c).
    - intros q E. discriminate E. }
  destruct (Hrow m Hm) as (H1 & H2 & H3 & H4 & H5 & H6 & H7).
  cbn [fill Routes.distance_km Routes.traffic_delay_minutes Routes.weather_impact
       Routes.promised_delivery_days Routes.actual_delivery_days
       Routes.delivery_cost_inr Routes.total_cost].
  repeat split; try assumption; try apply H3; try (now apply or_zero_not_negative).
  apply or_zero_not_negative. unfold fillna.
  destruct (Merged.total_cost m) as [v|] eqn:Ev; [exact H7|].
  intros q E. fold med in E. apply (median_not_negative _ q) in E; [exact E|].
  intros v Hv. apply in_map_iff in Hv. destruct Hv as (m' & Em' & Hm').
  now apply (proj2 (proj2 (proj2 (proj2 (proj2 (proj2 (Hrow m' Hm'))))))).
Qed.

Ltac sample_not_negative :=
  let q := fresh "q" in
  let E := fresh "E" in
  intros q E; try discriminate E; injection E as <-; unfold Qle; simpl; lia.

Lemma enrich_not_negative_witness :
  Forall (fun e => 0 <= Routes.total_cost e)
         (enrich Sample.raw_routes Sample.deliveries Sample.cost_rows).
Proof.
  apply Forall_forall. intros e He.
  apply (enrich_not_negative Sample.raw_routes Sample.deliveries Sample.cost_rows);
    [| | | exact He].
  - intros r Hr. simpl in Hr.
    repeat (destruct Hr as [<-|Hr]; [split; sample_not_negative|]). contradiction.
  - intros d Hd. simpl in Hd.
    repeat (destruct Hd as [<-|Hd]; [repeat split; sample_not_negative|]).
    contradiction.
  - intros c cell Hc Hcell. simpl in Hc.
    repeat (destruct Hc as [<-|Hc];
            [simpl in Hcell;
             repeat (destruct Hcell as [<-|Hcell]; [sample_not_negative|]);
             contradiction|]).
    contradiction.
Defined.

(** *** The score and the raw features *)



(** *** The means of the matching routes *)

Lemma fold_plus_not_negative (l : list Q) :
  (forall x, In x l -> 0 <= x) -> forall a, 0 <= a -> 0 <= fold_left Qplus l a.
Proof.
  induction l as [|y ys IH]; intros H a Ha; simpl; [exact Ha|].
  apply IH; [intros x Hx; apply H; now right|].
  pose proof (H y (or_introl eq_refl)). lra.
Qed.

Lemma col_mean_not_negative (col : list Q) :
  (forall x, In x col -> 0 <= x) -> 0 <= col_mean col.
Proof.
  intro H. unfold col_mean, col_sum, Qdiv. apply Qmult_le_0_compat.
  - apply fold_plus_not_negative; [exact H | apply Qle_refl].
  - apply Qinv_le_0_compat. rewrite <- (Zle_Qle 0). lia.
Qed.

(** the mean of a column of one cell is the cell *)
Lemma col_mean_single (x : Q) : col_mean [x] == x.
Proof. unfold col_mean, col_sum. simpl. field. Qed.

(** X19: the candidates of a request carry one route profile: any two of
    them have the same distance, traffic delay, weather impact and cost.
    When a single route matches the destination these are the numbers of
    that route, and when the matching routes have no negative number the
    candidates have none. *)
Theorem route_profile_uniform (P : PatternEngine) (K : SortKind) (t : Tables)
    (product : string) (priority : Priority) (destination : string)
    (options_df : list Scored) (best : Scored) :
  submit t product priority destination = Ok (options_df, best) ->
  exists found,
    re_search destination = Some found /\
    route_data (routes t) found <> [] /\
    (forall r1 r2, In r1 options_df -> In r2 options_df ->
       distance_km (candidate r1) = distance_km (candidate r2) /\
       traffic_delay_minutes (candidate r1) = traffic_delay_minutes (candidate r2) /\
       weather_impact (candidate r1) = weather_impact (candidate r2) /\
       cost (candidate r1) = cost (candidate r2)) /\
    (forall x, route_data (routes t) found = [x] ->
       forall r, In r options_df ->
         distance_km (candidate r) == Routes.distance_km x /\
         traffic_delay_minutes (candidate r) == Routes.traffic_delay_minutes x /\
         weather_impact (candidate r) == Routes.weather_impact x /\
         cost (candidate r) == Routes.total_cost x) /\
    ((forall x, In x (route_data (routes t) found) ->
        0 <= Routes.distance_km x /\ 0 <= Routes.traffic_delay_minutes x /\
        0 <= Routes.weather_impact x /\ 0 <= Routes.total_cost x) ->
     forall r, In r options_df ->
       0 <= distance_km (candidate r) /\ 0 <= traffic_delay_minutes (candidate r) /\
       0 <= weather_impact (candidate r) /\ 0 <= cost (candidate r)).
Proof.
  intro H. apply submit_ok in H.
  destruct H as (found & _ & Hre & Hrd & _ & -> & _).
  exists found. split; [exact Hre|]. split; [exact Hrd|].
  set (rd := route_data (routes t) found) in *.
  assert (Hrow : forall r,
            In r (scored_columns
                    (options (available_wh (warehouse t) product) (fleet t) rd)) ->
            distance_km (candidate r) = col_mean (map Routes.distance_km rd) /\
            traffic_delay_minutes (candidate r)
            = col_mean (map Routes.traffic_delay_minutes rd) /\
            weather_impact (candidate r) = col_mean (map Routes.weather_impact rd) /\
            cost (candidate r) = col_mean (map Routes.total_cost rd)).
  { intros r Hr. apply scored_columns_in in Hr. destruct Hr as (o & Ho & ->).
    apply options_in in Ho. destruct Ho as (wh & v & _ & _ & ->).
    repeat split. }
  split; [|split].
  - intros r1 r2 H1 H2.
    destruct (Hrow r1 H1) as (A1 & B1 & C1 & D1).
    destruct (Hrow r2 H2) as (A2 & B2 & C2 & D2).
    repeat split; congruence.
  - intros x Ex r Hr. destruct (Hrow r Hr) as (A & B & C & D).
    rewrite A, B, C, D, Ex. cbn [map]. repeat split; apply col_mean_single.
  - intros Hpos r Hr. destruct (Hrow r Hr) as (A & B & C & D).
    rewrite A, B, C, D.
    repeat split; apply col_mean_not_negative; intros y Hy;
      apply in_map_iff in Hy; destruct Hy as (x & <- & Hx); apply (Hpos x Hx).
Qed.

Lemma route_profile_uniform_witness :
  exists options_df best,
    submit (E := fragment_engine) (K := stable_kind) Sample.tables "Electronics"
      Express "Mumbai"
    = Ok (options_df, best) /\
    Forall (fun r => distance_km (candidate r) == 1300 /\ cost (candidate r) == 120)
           options_df.
Proof.
  destruct (submit (E := fragment_engine) (K := stable_kind) Sample.tables
              "Electronics" Express "Mumbai")
    as [[options_df best]|c] eqn:E; [|vm_compute in E; discriminate E].
  exists options_df, best. split; [reflexivity|].
  destruct (route_profile_uniform fragment_engine stable_kind Sample.tables
              "Electronics" Express "Mumbai" options_df best E)
    as (found & Hre & _ & _ & Hone & _).
  cbv in Hre. injection Hre as <-.
  apply Forall_forall. intros r Hr.
  destruct (Hone (nth 0 (routes Sample.tables) (fill None Sample.unmatched_route))
              eq_refl r Hr) as (Hd & _ & _ & Hc).
  split; [exact Hd | exact Hc].
Defined.

(** *** Where the cells of a merged row come from *)



(** *** The route filter on plain destinations *)

(** X20: for a destination without special characters the matching routes
    are the rows whose label is text that contains the destination, up to
    case: a missing label never matches.  When no route matches, some
    warehouse being eligible and the label column holding some text, the
    request stops with the no-route condition and no candidate is made. *)
Theorem plain_destination_routes (P : PatternEngine) (K : SortKind) (t : Tables)
    (product : string) (priority : Priority) (destination : string) :
  plain destination ->
  exists atoms found,
    compile destination = Some atoms /\
    re_search destination = Some found /\
    (forall r,
       In r (route_data (routes t) found) <->
       In r (routes t) /\
       exists s, Routes.route r = Str s /\ ci_substring destination s) /\
    (forall r, In r (route_data (routes t) found) -> Routes.route r <> Num 0) /\
    (available_wh (warehouse t) product <> [] ->
     str_accessor (map Routes.route (routes t)) = true ->
     (forall r s, In r (routes t) -> Routes.route r = Str s ->
                  ~ ci_substring destination s) ->
     generate t product priority destination = Stop NoRoute /\
     submit t product priority destination = Stop NoRoute).
Proof.
  intro Hp. destruct (route_data_plain P K t product priority destination Hp)
    as (atoms & found & Hc & Hre & Hr & Hstop).
  exists atoms, found. split; [exact Hc|]. split; [exact Hre|].
  split; [exact Hr|]. split.
  - intros r Hin E. apply Hr in Hin. destruct Hin as [_ (s & Es & _)]. congruence.
  - intros Ha Hacc Hnone. apply Hstop; [exact Ha | exact Hacc|].
    destruct (route_data (routes t) found) as [|r rs] eqn:E; [reflexivity|].
    destruct (proj1 (Hr r) (or_introl eq_refl)) as [Hin (s & Es & Hs)].
    now destruct (Hnone r s Hin Es).
Qed.

Lemma plain_destination_routes_witness :
  submit (E := fragment_engine) (K := stable_kind) Sample.tables "Electronics" Express
    "Kolkata"
  = Stop NoRoute.
Proof.
  destruct (plain_destination_routes fragment_engine stable_kind Sample.tables
              "Electronics" Express "Kolkata")
    as (atoms & found & Hc & _ & _ & _ & Hstop).
  - intros c Hc. simpl in Hc.
    repeat (destruct Hc as [<-|Hc]; [reflexivity|]). contradiction.
  - apply Hstop.
    + vm_compute. discriminate.
    + reflexivity.
    + intros r s Hr Es Hs. apply search_lits in Hs.
      cbv in Hr. repeat (destruct Hr as [<-|Hr]; [cbv in Es |]); try contradiction;
        try discriminate Es; injection Es as <-; vm_compute in Hs; discriminate Hs.
Defined.

(** *** The total cost and its imputation *)

(** X21: for a cost record whose columns have distinct names the total cost
    is the sum of its cells in the columns that end in [_inr], a missing
    cell counting for 0.  In the merged table a total cost that is present
    is kept; a missing one becomes a median of the total costs present
    before the fill (at least half of them are at most it, at least half
    are at least it, and it lies between two of them), or 0 when none is
    present; every other missing cell becomes 0. *)
Theorem cost_imputation (routes : list RawRoutes.row)
    (delivery : list Delivery.row) (costs : list Costs.row) (i : nat)
    (m : Merged.row) :
  let merged := merge routes delivery costs in
  let known := present (map Merged.total_cost merged) in
  (forall c : Costs.row,
     NoDup (map fst (Costs.cells c)) ->
     total_cost c
     = col_sum (map (fun x => or_zero (snd x))
                    (filter (fun x => endswith (fst x) "_inr") (Costs.cells c)))) /\
  (nth_error merged i = Some m ->
   exists e,
     nth_error (enrich routes delivery costs) i = Some e /\
     (forall v, Merged.total_cost m = Some v -> Routes.total_cost e = v) /\
     (Merged.total_cost m = None -> known = [] -> Routes.total_cost e = 0) /\
     (Merged.total_cost m = None -> known <> [] ->
      (List.length known
       <= 2 * List.length (filter (fun x => Qle_bool x (Routes.total_cost e)) known))%nat /\
      (List.length known
       <= 2 * List.length (filter (fun x => Qle_bool (Routes.total_cost e) x) known))%nat /\
      exists lo hi, In lo known /\ In hi known /\ lo <= Routes.total_cost e <= hi) /\
     filled_text (Merged.route m) (Routes.route e) /\
     filled_number (Merged.distance_km m) (Routes.distance_km e) /\
     filled_text (Merged.delivery_status m) (Routes.delivery_status e) /\
     filled_number (Merged.promised_delivery_days m) (Routes.promised_delivery_days e) /\
     filled_number (Merged.actual_delivery_days m) (Routes.actual_delivery_days e) /\
     filled_number (Merged.delivery_cost_inr m) (Routes.delivery_cost_inr e)).
Proof.
  cbv zeta. split.
  - intros c Hnd. unfold total_cost.
    now rewrite (selected_cells_distinct c Hnd), map_map.
  - intro Hm. unfold enrich, fill_table.
    set (col := map Merged.total_cost (merge routes delivery costs)).
    exists (fill (median col) m). split; [now apply map_nth_error|].
    unfold filled_text, filled_number.
    cbn [fill Routes.total_cost Routes.route Routes.distance_km Routes.delivery_status
         Routes.promised_delivery_days Routes.actual_delivery_days
         Routes.delivery_cost_inr].
    split; [intros v ->; reflexivity|].
    split.
    { intros -> Hnone. apply median_none in Hnone. now rewrite Hnone. }
    split.
    { intros -> Hsome. cbn [fillna].
      destruct (median col) as [x|] eqn:Emed.
      - cbn [or_zero].
        destruct (median_halves col x Emed) as (H1 & H2 & lo & hi & Hlo & Hhi & Hb).
        split; [exact H1|]. split; [exact H2|].
        exists lo, hi. split; [now apply present_In|].
        split; [now apply present_In | exact Hb].
      - apply median_none in Emed. contradiction. }
    repeat split.
    + now destruct (Merged.route m).
    + now destruct (Merged.distance_km m).
    + now destruct (Merged.delivery_status m).
    + now destruct (Merged.promised_delivery_days m).
    + now destruct (Merged.actual_delivery_days m).
    + now destruct (Merged.delivery_cost_inr m).
Qed.

Lemma cost_imputation_witness :
  exists e,
    nth_error (enrich Sample.raw_routes Sample.deliveries Sample.cost_rows) 1 = Some e /\
    Routes.route e = Num 0 /\
    exists lo hi,
      In lo [120; 350] /\ In hi [120; 350] /\ lo <= Routes.total_cost e <= hi.
Proof.
  destruct (proj2 (cost_imputation Sample.raw_routes Sample.deliveries
                     Sample.cost_rows 1 Sample.unmatched_route))
    as (e & He & _ & _ & Hmed & Hroute & _).
  - reflexivity.
  - exists e. split; [exact He|]. split; [exact Hroute|].
    destruct Hmed as (_ & _ & Hb); [reflexivity | discriminate | exact Hb].
Defined.
